(** * A dense, index-addressed directed multigraph (graph.cpp)

    Shallow embedding of [struct Graph], of its four mutating functions
    [Graph_addNode], [Graph_addEdge], [Graph_removeEdge], [Graph_removeNode]
    and of [Graph_print], followed by the properties of the data structure.

    Conventions of the embedding:
    - [std::size_t] values are numbers of type [N]; the only arithmetic the
      source performs on them is the decrement [--n] under the guard
      [n > node], which cannot wrap around;
    - [std::vector<T>] is [list T]; an iterator is the offset (a [nat]) from
      [begin()];
    - the functions write their results through reference parameters; here
      they return the new graph together with the values written;
    - a call whose behaviour is undefined in C++ (indexing or erasing past the
      end of a vector) returns [None]. *)

From Stdlib Require Import NArith Floats Lia Ascii.
From stdpp Require Import base option list numbers strings.

#[local] Set Warnings "-inexact-float".

(** ** Status codes *)

Inductive GraphStatus : Set :=
  | GRAPH_SUCCESS
  | GRAPH_ERR_INVALID_PARENT
  | GRAPH_ERR_INVALID_NODE
  | GRAPH_ERR_INVALID_EDGE.

(** ** The vector operations the source uses *)

Module Vec.

(** [std::numeric_limits<std::size_t>::max()] on a 64-bit target. *)
Definition SIZE_MAX : N := 18446744073709551615%N.

(** [v.size()] *)
Definition size {A} (v : list A) : N := N.of_nat (length v).

(** [v.push_back(x)] and [v.emplace_back()] with [x] the fresh element. *)
Definition push_back {A} (v : list A) (x : A) : list A := v ++ [x].

(** [v[i]]: undefined past the end. *)
Definition at_ {A} (v : list A) (i : N) : option A := v !! N.to_nat i.

(** [v[i] = x], for an index already known to be in range. *)
Definition set {A} (v : list A) (i : N) (x : A) : list A :=
  <[N.to_nat i := x]> v.

(** [v.erase(v.begin() + pos)]: the iterator must be dereferenceable. *)
Definition erase {A} (v : list A) (pos : nat) : option (list A) :=
  if decide (pos < length v) then Some (delete pos v) else None.

(** [v.erase(first, v.end())] *)
Definition erase_to_end {A} (v : list A) (first : nat) : list A :=
  take first v.

(** [std::find(v.begin(), v.end(), x)]: the offset of the leftmost element
    equal to [x]; [None] stands for [v.end()]. *)
Fixpoint find (v : list N) (x : N) : option nat :=
  match v with
  | [] => None
  | y :: v' => if (y =? x)%N then Some 0 else S <$> find v' x
  end.

(** The elements [std::remove] keeps, in their order. *)
Fixpoint kept (v : list N) (x : N) : list N :=
  match v with
  | [] => []
  | y :: v' => if (y =? x)%N then kept v' x else y :: kept v' x
  end.

(** [std::remove(v.begin(), v.end(), x)]: the kept elements are moved to the
    front, the vector keeps its length, and the new logical end is
    returned.  What lies behind the new end is unspecified; as for a
    vector of integers in the usual implementations, it is left as it
    was. *)
Definition remove (v : list N) (x : N) : list N * nat :=
  let k := kept v x in (k ++ drop (length k) v, length k).

(** [std::for_each(v.begin(), v.end(), f)] with [f] taking its argument by
    reference. *)
Definition for_each {A} (f : A → A) (v : list A) : list A := map f v.

End Vec.

(** ** The graph *)

Record Graph : Type := mkGraph {
  node_data : list float;
  adj : list (list N)
}.

(** [Graph g;] : both vectors value-initialised. *)
Definition Graph_empty : Graph := mkGraph [] [].

(** ** The four mutating functions *)

(** [Graph_addNode(g, val, parent, out_node, status)]; the result carries
    the graph, [out_node] and [status]. *)
Definition Graph_addNode (g : Graph) (val : float) (parent : N)
  : option (Graph * N * GraphStatus) :=
  let new_index := Vec.size (node_data g) in
  let node_data1 := Vec.push_back (node_data g) val in
  let adj1 := Vec.push_back (adj g) [] in
  let out_node := new_index in
  if negb (parent =? Vec.SIZE_MAX)%N then
    if (parent <? new_index)%N then
      neighbors ← Vec.at_ adj1 parent;
      Some (mkGraph node_data1
              (Vec.set adj1 parent (Vec.push_back neighbors new_index)),
            out_node, GRAPH_SUCCESS)
    else
      Some (mkGraph node_data1 adj1, out_node, GRAPH_ERR_INVALID_PARENT)
  else
    Some (mkGraph node_data1 adj1, out_node, GRAPH_SUCCESS).

(** [Graph_addEdge(g, source, target, status)] *)
Definition Graph_addEdge (g : Graph) (source target : N)
  : option (Graph * GraphStatus) :=
  if (Vec.size (node_data g) <=? source)%N
     || (Vec.size (node_data g) <=? target)%N then
    Some (g, GRAPH_ERR_INVALID_EDGE)
  else
    neighbors ← Vec.at_ (adj g) source;
    Some (mkGraph (node_data g)
            (Vec.set (adj g) source (Vec.push_back neighbors target)),
          GRAPH_SUCCESS).

(** [Graph_removeEdge(g, source, target, status)] *)
Definition Graph_removeEdge (g : Graph) (source target : N)
  : option (Graph * GraphStatus) :=
  if (Vec.size (adj g) <=? source)%N then
    Some (g, GRAPH_ERR_INVALID_EDGE)
  else
    neighbors ← Vec.at_ (adj g) source;
    match Vec.find neighbors target with
    | Some it =>
        neighbors' ← Vec.erase neighbors it;
        Some (mkGraph (node_data g) (Vec.set (adj g) source neighbors'),
              GRAPH_SUCCESS)
    | None => Some (g, GRAPH_ERR_INVALID_EDGE)
    end.

(** The lambda [[node](std::size_t &n) { if (n > node) --n; }]. *)
Definition shift_down (node n : N) : N :=
  if (node <? n)%N then N.pred n else n.

(** The body of the loop [for (auto &neighbors : g.adj)] of
    [Graph_removeNode]. *)
Definition purge (node : N) (neighbors : list N) : list N :=
  let '(moved, new_end) := Vec.remove neighbors node in
  Vec.for_each (shift_down node) (Vec.erase_to_end moved new_end).

(** [Graph_removeNode(g, node, status)] *)
Definition Graph_removeNode (g : Graph) (node : N)
  : option (Graph * GraphStatus) :=
  if (Vec.size (node_data g) <=? node)%N then
    Some (g, GRAPH_ERR_INVALID_NODE)
  else
    node_data1 ← Vec.erase (node_data g) (N.to_nat node);
    adj1 ← Vec.erase (adj g) (N.to_nat node);
    Some (mkGraph node_data1 (map (purge node) adj1), GRAPH_SUCCESS).

(** ** Sequences of calls *)

Inductive Op : Type :=
  | AddNode (val : float) (parent : N)
  | AddEdge (source target : N)
  | RemoveEdge (source target : N)
  | RemoveNode (node : N).

(** One call: the graph it leaves behind and the status it reports (the
    [out_node] of [Graph_addNode] is dropped). *)
Definition call (o : Op) (g : Graph) : option (Graph * GraphStatus) :=
  match o with
  | AddNode val parent => (λ r, (r.1.1, r.2)) <$> Graph_addNode g val parent
  | AddEdge s t => Graph_addEdge g s t
  | RemoveEdge s t => Graph_removeEdge g s t
  | RemoveNode k => Graph_removeNode g k
  end.

(** The graph an operation leaves behind, whatever status it reports. *)
Definition run (o : Op) (g : Graph) : option Graph := fst <$> call o g.

(** [Graph_addNode] is the one function that changes the graph on every
    call. *)
Definition is_addNode (o : Op) : bool :=
  match o with AddNode _ _ => true | _ => false end.

(** States reachable from the empty graph. *)
Inductive reachable : Graph → Prop :=
  | reachable_empty : reachable Graph_empty
  | reachable_step o g g' :
      reachable g → run o g = Some g' → reachable g'.

(** ** The invariants of the data model *)

(** The number of nodes. *)
Definition node_count (g : Graph) : N := Vec.size (node_data g).

(** One adjacency list per node. *)
Definition adj_len_ok (g : Graph) : Prop :=
  length (adj g) = length (node_data g).

(** No adjacency list names a node that does not exist. *)
Definition targets_in_range (g : Graph) : Prop :=
  ∀ (i : nat) (neighbors : list N) (t : N),
    adj g !! i = Some neighbors → t ∈ neighbors → (t < node_count g)%N.

(** What is left of one adjacency list once node [k] is gone: the targets
    other than [k], in their order, those above [k] one lower, those below
    [k] as they were. *)
Definition renumbered (k : N) (neighbors neighbors' : list N) : Prop :=
  Forall2 (λ t t', ((k < t)%N → t' = (t - 1)%N) ∧ ((t < k)%N → t' = t))
    (filter (λ t, t ≠ k) neighbors) neighbors'.

(** The index under which node [i] is found once node [k] is gone. *)
Definition index_after (k : N) (i : nat) : nat :=
  if decide (i < N.to_nat k) then i else pred i.

(** ** [Graph_print] *)

(** What [Graph_print] hands to [std::cout], one item per [<<]: a string
    literal, a [std::size_t] or a [double].  How the stream formats a
    number is left to the stream. *)
Inductive Out : Type :=
  | OStr (s : string)
  | OSize (n : N)
  | ODouble (d : float).

(** The string literal ["\n"]. *)
Definition newline : string := String "010"%char EmptyString.

(** The body of the [std::for_each] over [g.adj[i]]. *)
Definition print_target (target : N) : list Out := [OSize target; OStr " "].

(** The line of node [i] with value [val] and adjacency list
    [neighbors]. *)
Definition print_line (i : nat) (val : float) (neighbors : list N)
  : list Out :=
  [OStr "Node "; OSize (N.of_nat i); OStr " ("; ODouble val; OStr ") -> "]
  ++ concat (map print_target neighbors)
  ++ [OStr newline].

(** One turn of the loop [for (i = 0; i < g.node_data.size(); ++i)]: it
    reads [g.node_data[i]] and [g.adj[i]]. *)
Definition print_node (g : Graph) (i : nat) : option (list Out) :=
  val ← Vec.at_ (node_data g) (N.of_nat i);
  neighbors ← Vec.at_ (adj g) (N.of_nat i);
  Some (print_line i val neighbors).

(** [Graph_print(g)]: the items written, in order. *)
Definition Graph_print (g : Graph) : option (list Out) :=
  lines ← mapM (print_node g) (seq 0 (length (node_data g)));
  Some (OStr ("Graph Nodes and Adjacency Lists:" +:+ newline)
        :: concat lines).

(** ** Several calls in a row *)

(** The calls [os] made one after the other: the final graph and the
    statuses reported, in order. *)
Fixpoint calls (os : list Op) (g : Graph)
  : option (Graph * list GraphStatus) :=
  match os with
  | [] => Some (g, [])
  | o :: os' =>
      r ← call o g;
      r' ← calls os' r.1;
      Some (r'.1, r.2 :: r'.2)
  end.

(** ** The two edge functions seen from the source's adjacency list *)

(** The source of a call of [Graph_addEdge] or [Graph_removeEdge]. *)
Definition edge_source (o : Op) : option N :=
  match o with
  | AddEdge source _ | RemoveEdge source _ => Some source
  | _ => None
  end.

(** ** The graph as a multiset of edges *)

(** How many times the edge [s -> t] is stored. *)
Definition edge_mult (g : Graph) (s : nat) (t : N) : nat :=
  match adj g !! s with
  | Some neighbors => length (filter (λ x, x = t) neighbors)
  | None => 0
  end.

(** The index node [j] had before node [k] was removed. *)
Definition index_before (k : N) (j : nat) : nat :=
  if decide (j < N.to_nat k) then j else S j.

(** The target that is renumbered to [t] when node [k] is removed. *)
Definition shift_up (k t : N) : N :=
  if (t <? k)%N then t else (t + 1)%N.

(** ** Sample graphs *)

(** Three nodes; node 0 has the edge to node 2 three times. *)
Definition sample_triple : Graph :=
  mkGraph [1.5%float; 2.5%float; 3.5%float] [[2; 2; 2]; []; [0]]%N.

(** Three nodes and the single edge 0 -> 2. *)
Definition sample_skip : Graph :=
  mkGraph [1.5%float; 2.5%float; 3.5%float] [[2]; []; []]%N.

(** Four nodes with repeated edges and a self-loop. *)
Definition sample_four : Graph :=
  mkGraph [1.5%float; 2.5%float; 3.5%float; 4.5%float]
    [[1; 3; 1; 2]; [0]; [1; 1]; [3; 0]]%N.

(** The states [main] goes through. *)
Definition main_root : Graph := mkGraph [1.23%float] [[]].
Definition main_child : Graph := mkGraph [1.23%float; 4.56%float] [[1%N]; []].

(** The scenario of [main]. *)
Example main_scenario :
  ∃ g1 g2 g3 g4 g5,
    Graph_addNode Graph_empty 1.23%float Vec.SIZE_MAX = Some (g1, 0%N, GRAPH_SUCCESS)
    ∧ Graph_addNode g1 4.56%float 0%N = Some (g2, 1%N, GRAPH_SUCCESS)
    ∧ adj g2 = [[1%N]; []]
    ∧ Graph_addEdge g2 0%N 1%N = Some (g3, GRAPH_SUCCESS)
    ∧ adj g3 = [[1%N; 1%N]; []]
    ∧ Graph_removeEdge g3 0%N 1%N = Some (g4, GRAPH_SUCCESS)
    ∧ adj g4 = [[1%N]; []]
    ∧ Graph_removeNode g4 1%N = Some (g5, GRAPH_SUCCESS)
    ∧ adj g5 = [[]] ∧ node_data g5 = [1.23%float].
Proof. repeat eexists. Qed.

(** ** Facts about the vector operations *)

Section vec_facts.
Implicit Types (v l : list N) (x t : N).

Lemma size_lt_lookup {A} (w : list A) (i : N) :
  (i < Vec.size w)%N ↔ is_Some (w !! N.to_nat i).
Proof. unfold Vec.size. rewrite lookup_lt_is_Some. lia. Qed.

Lemma size_push_back {A} (w : list A) (a : A) :
  Vec.size (Vec.push_back w a) = (Vec.size w + 1)%N.
Proof. unfold Vec.size, Vec.push_back. rewrite length_app. simpl. lia. Qed.

Lemma kept_filter v x : Vec.kept v x = filter (λ y, y ≠ x) v.
Proof.
  induction v as [|y v IH]; [done|]. simpl.
  destruct (N.eqb_spec y x) as [->|Hne].
  - rewrite filter_cons_False; [done|]. by intros ?.
  - rewrite filter_cons_True; [|done]. by rewrite IH.
Qed.

Lemma erase_remove v x :
  let '(moved, new_end) := Vec.remove v x in
  Vec.erase_to_end moved new_end = filter (λ y, y ≠ x) v.
Proof.
  unfold Vec.remove, Vec.erase_to_end. simpl.
  rewrite take_app_length. apply kept_filter.
Qed.

Lemma purge_filter_map node l :
  purge node l = shift_down node <$> filter (λ y, y ≠ node) l.
Proof.
  unfold purge. pose proof (erase_remove l node) as H.
  destruct (Vec.remove l node) as [moved new_end].
  unfold Vec.for_each. by rewrite H.
Qed.

Lemma find_None v x : Vec.find v x = None ↔ x ∉ v.
Proof.
  induction v as [|y v IH]; simpl.
  - split; [intros _; apply not_elem_of_nil | done].
  - destruct (N.eqb_spec y x) as [->|Hne].
    + split; [done | intros []; left].
    + rewrite fmap_None, IH, not_elem_of_cons. intuition congruence.
Qed.

Lemma find_first l1 l2 x :
  x ∉ l1 → Vec.find (l1 ++ x :: l2) x = Some (length l1).
Proof.
  induction l1 as [|y l1 IH]; simpl; intros Hx.
  - by rewrite N.eqb_refl.
  - apply not_elem_of_cons in Hx as [Hne Hx].
    destruct (N.eqb_spec y x) as [->|_]; [done|]. by rewrite IH.
Qed.

Lemma find_Some v x it :
  Vec.find v x = Some it →
  ∃ l1 l2, v = l1 ++ x :: l2 ∧ (x ∉ l1) ∧ it = length l1.
Proof.
  revert it. induction v as [|y v IH]; simpl; intros it; [done|].
  destruct (N.eqb_spec y x) as [->|Hne].
  - intros [= <-]. exists [], v. split_and!; [done| apply not_elem_of_nil |done].
  - intros (j & Hj & ->)%fmap_Some.
    destruct (IH _ Hj) as (l1 & l2 & -> & Hx & ->).
    exists (y :: l1), l2. split_and!; [done| |done].
    apply not_elem_of_cons. split; [congruence | done].
Qed.

Lemma erase_middle {A} (l1 l2 : list A) (a : A) :
  Vec.erase (l1 ++ a :: l2) (length l1) = Some (l1 ++ l2).
Proof.
  unfold Vec.erase. rewrite decide_True.
  - f_equal. induction l1 as [|b l1 IH]; [done|]. simpl. by rewrite IH.
  - rewrite length_app. simpl. lia.
Qed.

Lemma erase_Some {A} (w w' : list A) (pos : nat) :
  Vec.erase w pos = Some w' ↔ pos < length w ∧ w' = delete pos w.
Proof.
  unfold Vec.erase. case_decide; split; try intros [= <-]; try done.
  - by intros [_ ->].
  - by intros [? _].
Qed.

End vec_facts.

(** ** What each call does, case by case *)

Section calls.
Implicit Types (g : Graph) (st : GraphStatus).

Lemma adj_at g (i : N) :
  adj_len_ok g → (i < node_count g)%N →
  ∃ neighbors, adj g !! N.to_nat i = Some neighbors.
Proof.
  unfold adj_len_ok, node_count, Vec.size. intros Hwf Hi.
  apply lookup_lt_is_Some. lia.
Qed.

Lemma addNode_inv g val parent g' out st :
  Graph_addNode g val parent = Some (g', out, st) →
  out = node_count g
  ∧ node_data g' = node_data g ++ [val]
  ∧ ((st = GRAPH_SUCCESS ∧ parent = Vec.SIZE_MAX ∧ adj g' = adj g ++ [[]])
     ∨ (st = GRAPH_ERR_INVALID_PARENT ∧ parent ≠ Vec.SIZE_MAX
        ∧ (node_count g ≤ parent)%N ∧ adj g' = adj g ++ [[]])
     ∨ (st = GRAPH_SUCCESS ∧ parent ≠ Vec.SIZE_MAX
        ∧ (parent < node_count g)%N
        ∧ ∃ neighbors, (adj g ++ [[]]) !! N.to_nat parent = Some neighbors
            ∧ adj g' = <[N.to_nat parent := neighbors ++ [node_count g]]>
                         (adj g ++ [[]]))).
Proof.
  unfold Graph_addNode, node_count, Vec.at_, Vec.set, Vec.push_back.
  destruct (N.eqb_spec parent Vec.SIZE_MAX) as [Hp|Hp]; simpl.
  - intros [= <- <- <-]. split_and!; [done..|]. left. done.
  - destruct (N.ltb_spec parent (Vec.size (node_data g))) as [Hlt|Hge].
    + destruct ((adj g ++ [[]]) !! N.to_nat parent) as [neighbors|] eqn:E;
        simpl; [|done].
      intros [= <- <- <-]. split_and!; [done..|]. right; right.
      split_and!; [done..|]. by exists neighbors.
    + intros [= <- <- <-]. split_and!; [done..|]. right; left. done.
Qed.

Lemma addEdge_inv g source target g' st :
  Graph_addEdge g source target = Some (g', st) →
  (st = GRAPH_ERR_INVALID_EDGE ∧ g' = g
   ∧ ((node_count g ≤ source)%N ∨ (node_count g ≤ target)%N))
  ∨ (st = GRAPH_SUCCESS
     ∧ (source < node_count g)%N ∧ (target < node_count g)%N
     ∧ ∃ neighbors, adj g !! N.to_nat source = Some neighbors
         ∧ g' = mkGraph (node_data g)
                  (<[N.to_nat source := neighbors ++ [target]]> (adj g))).
Proof.
  unfold Graph_addEdge, node_count, Vec.at_, Vec.set, Vec.push_back.
  destruct (N.leb_spec (Vec.size (node_data g)) source) as [Hs|Hs]; simpl.
  { intros [= <- <-]. left. auto. }
  destruct (N.leb_spec (Vec.size (node_data g)) target) as [Ht|Ht]; simpl.
  { intros [= <- <-]. left. auto. }
  destruct (adj g !! N.to_nat source) as [neighbors|] eqn:E; simpl; [|done].
  intros [= <- <-]. right. split_and!; [done..|]. by exists neighbors.
Qed.

Lemma removeEdge_inv g source target g' st :
  Graph_removeEdge g source target = Some (g', st) →
  (st = GRAPH_ERR_INVALID_EDGE ∧ g' = g
   ∧ ((Vec.size (adj g) ≤ source)%N
      ∨ ∃ neighbors, adj g !! N.to_nat source = Some neighbors
          ∧ target ∉ neighbors))
  ∨ (st = GRAPH_SUCCESS
     ∧ ∃ l1 l2, adj g !! N.to_nat source = Some (l1 ++ target :: l2)
         ∧ (target ∉ l1)
         ∧ g' = mkGraph (node_data g)
                  (<[N.to_nat source := l1 ++ l2]> (adj g))).
Proof.
  unfold Graph_removeEdge, Vec.at_, Vec.set.
  destruct (N.leb_spec (Vec.size (adj g)) source) as [Hs|Hs].
  { intros [= <- <-]. left. auto. }
  destruct (adj g !! N.to_nat source) as [neighbors|] eqn:E; simpl; [|done].
  destruct (Vec.find neighbors target) as [it|] eqn:F.
  - apply find_Some in F as (l1 & l2 & -> & Hl1 & ->).
    rewrite erase_middle. simpl. intros [= <- <-]. right.
    split; [done|]. by exists l1, l2.
  - apply find_None in F. intros [= <- <-]. left.
    split_and!; [done..|]. right. by exists neighbors.
Qed.

Lemma removeNode_inv g node g' st :
  Graph_removeNode g node = Some (g', st) →
  (st = GRAPH_ERR_INVALID_NODE ∧ g' = g ∧ (node_count g ≤ node)%N)
  ∨ (st = GRAPH_SUCCESS ∧ (node < node_count g)%N
     ∧ N.to_nat node < length (adj g)
     ∧ g' = mkGraph (delete (N.to_nat node) (node_data g))
              (purge node <$> delete (N.to_nat node) (adj g))).
Proof.
  unfold Graph_removeNode, node_count.
  destruct (N.leb_spec (Vec.size (node_data g)) node) as [Hs|Hs].
  { intros [= <- <-]. left. auto. }
  destruct (Vec.erase (node_data g) _) as [nd|] eqn:E1; simpl; [|done].
  destruct (Vec.erase (adj g) _) as [a|] eqn:E2; simpl; [|done].
  apply erase_Some in E1 as [_ ->]. apply erase_Some in E2 as [Hlt ->].
  intros [= <- <-]. right. done.
Qed.

(** Under the length invariant no call runs into undefined behaviour. *)
Lemma call_defined o g : adj_len_ok g → is_Some (call o g).
Proof.
  intros Hwf. destruct o as [val parent|s t|s t|k]; simpl.
  - unfold Graph_addNode, Vec.at_, Vec.push_back.
    destruct (N.eqb_spec parent Vec.SIZE_MAX); simpl; [by eexists|].
    destruct (N.ltb_spec parent (Vec.size (node_data g))) as [Hlt|];
      [|by eexists].
    destruct (adj_at g parent Hwf Hlt) as [neighbors E].
    rewrite (lookup_app_l_Some _ _ _ _ E). simpl. by eexists.
  - unfold Graph_addEdge, Vec.at_.
    destruct (N.leb_spec (Vec.size (node_data g)) s) as [|Hs]; simpl;
      [by eexists|].
    destruct (N.leb_spec (Vec.size (node_data g)) t); simpl; [by eexists|].
    destruct (adj_at g s Hwf Hs) as [neighbors ->]. simpl. by eexists.
  - unfold Graph_removeEdge, Vec.at_.
    destruct (N.leb_spec (Vec.size (adj g)) s) as [|Hs]; [by eexists|].
    apply size_lt_lookup in Hs as [neighbors ->]. simpl.
    destruct (Vec.find neighbors t) as [it|] eqn:F; [|by eexists].
    apply find_Some in F as (l1 & l2 & -> & _ & ->).
    rewrite erase_middle. simpl. by eexists.
  - unfold Graph_removeNode, Vec.erase.
    destruct (N.leb_spec (Vec.size (node_data g)) k) as [|Hk]; [by eexists|].
    unfold Vec.size in Hk. unfold adj_len_ok in Hwf.
    rewrite !decide_True by lia. simpl. by eexists.
Qed.

End calls.

(** ** Preservation of the two invariants by one call *)

Section invariants.
Implicit Types (g : Graph) (o : Op).

Lemma targets_in_range_Forall g :
  targets_in_range g
  ↔ Forall (Forall (λ t, (t < node_count g)%N)) (adj g).
Proof.
  unfold targets_in_range. rewrite Forall_lookup.
  split; intros H i l.
  - intros Hl. apply list.Forall_forall. intros t Ht. exact (H i l t Hl Ht).
  - intros t Hl Ht. exact (proj1 (list.Forall_forall _ _) (H i l Hl) t Ht).
Qed.

Lemma run_Some o g g' :
  run o g = Some g' ↔ ∃ st, call o g = Some (g', st).
Proof.
  unfold run. rewrite fmap_Some. split.
  - intros ([g1 st] & E & ->). by exists st.
  - intros [st E]. by exists (g', st).
Qed.

Lemma node_count_app g' g val :
  node_data g' = node_data g ++ [val] → node_count g' = (node_count g + 1)%N.
Proof. unfold node_count. intros ->. apply size_push_back. Qed.

Lemma shift_down_lt k n t :
  (k < n)%N → (t < n)%N → t ≠ k → (shift_down k t < n - 1)%N.
Proof. unfold shift_down. destruct (N.ltb_spec k t); lia. Qed.

Lemma call_len_ok o g g' st :
  adj_len_ok g → call o g = Some (g', st) → adj_len_ok g'.
Proof.
  unfold adj_len_ok. intros Hwf.
  destruct o as [val parent|s t|s t|k]; simpl.
  - intros ([[g1 out] st1] & E & [= <- <-])%fmap_Some. simpl.
    apply addNode_inv in E as (_ & Hnd & H). rewrite Hnd.
    destruct H as [(_ & _ & ->)|[(_ & _ & _ & ->)|(_ & _ & _ & l & _ & ->)]];
      rewrite ?length_insert, !length_app, Hwf; done.
  - intros [(_ & -> & _)|(_ & _ & _ & l & _ & ->)]%addEdge_inv; [done|].
    simpl. by rewrite length_insert.
  - intros [(_ & -> & _)|(_ & l1 & l2 & _ & _ & ->)]%removeEdge_inv; [done|].
    simpl. by rewrite length_insert.
  - intros [(_ & -> & _)|(_ & Hk & Hlt & ->)]%removeNode_inv; [done|].
    simpl. rewrite length_fmap, !length_delete, Hwf; [done|..];
      apply lookup_lt_is_Some; lia.
Qed.

Lemma call_in_range o g g' st :
  targets_in_range g → call o g = Some (g', st) → targets_in_range g'.
Proof.
  rewrite !targets_in_range_Forall. intros Hr.
  destruct o as [val parent|s t|s t|k]; simpl.
  - intros ([[g1 out] st1] & E & [= <- <-])%fmap_Some. simpl.
    apply addNode_inv in E as (_ & Hnd & H).
    rewrite (node_count_app _ _ _ Hnd).
    assert (Forall (Forall (λ t, (t < node_count g + 1)%N)) (adj g ++ [[]]))
      as Hr1.
    { apply Forall_app. split; [|by repeat constructor].
      eapply list.Forall_impl; [exact Hr|]. intros l Hl.
      eapply list.Forall_impl; [exact Hl|]. simpl. lia. }
    destruct H as [(_ & _ & ->)|[(_ & _ & _ & ->)|(_ & _ & _ & l & Hl & ->)]];
      [done..|].
    apply Forall_insert; [done|]. apply Forall_app. split.
    + by eapply Forall_lookup_1 in Hl.
    + repeat constructor. lia.
  - intros [(_ & -> & _)|(_ & _ & Ht & l & Hl & ->)]%addEdge_inv; [done|].
    simpl. unfold node_count in *. simpl.
    apply Forall_insert; [done|]. apply Forall_app. split.
    + by eapply Forall_lookup_1 in Hl.
    + by repeat constructor.
  - intros [(_ & -> & _)|(_ & l1 & l2 & Hl & _ & ->)]%removeEdge_inv; [done|].
    simpl. unfold node_count in *. simpl.
    apply Forall_insert; [done|].
    eapply Forall_lookup_1 in Hl; [|exact Hr].
    apply Forall_app in Hl as [H1 H2]. apply Forall_cons_1 in H2 as [_ H2].
    apply Forall_app. done.
  - intros [(_ & -> & _)|(_ & Hk & Hlt & ->)]%removeNode_inv; [done|].
    simpl.
    assert (node_count (mkGraph (delete (N.to_nat k) (node_data g))
              (purge k <$> delete (N.to_nat k) (adj g)))
            = (node_count g - 1)%N) as ->.
    { unfold node_count, Vec.size in *. simpl. rewrite length_delete; [lia|].
      apply lookup_lt_is_Some. lia. }
    apply Forall_fmap, Forall_delete.
    eapply list.Forall_impl; [exact Hr|]. intros l Hl. simpl.
    rewrite purge_filter_map. apply Forall_fmap, list.Forall_forall.
    intros t [Hne Ht]%list_elem_of_filter. simpl.
    eapply list.Forall_forall in Hl; [|exact Ht]. by apply shift_down_lt.
Qed.

Lemma reachable_ok g : reachable g → adj_len_ok g ∧ targets_in_range g.
Proof.
  induction 1 as [|o g g' _ [IH1 IH2] Hrun].
  - split; [done|]. intros i l t Hl. simpl in Hl. by rewrite lookup_nil in Hl.
  - apply run_Some in Hrun as [st Hc]. split.
    + by eapply call_len_ok.
    + by eapply call_in_range.
Qed.

End invariants.

(** ** The sample graphs are reachable *)

Lemma reachable_main_root : reachable main_root.
Proof.
  apply (reachable_step (AddNode 1.23%float Vec.SIZE_MAX) Graph_empty);
    [apply reachable_empty | reflexivity].
Defined.

Lemma reachable_main_child : reachable main_child.
Proof.
  apply (reachable_step (AddNode 4.56%float 0%N) main_root);
    [apply reachable_main_root | reflexivity].
Defined.

(** ** [Graph_removeNode] *)

Lemma purge_renumbered k l : renumbered k l (purge k l).
Proof.
  unfold renumbered. rewrite purge_filter_map.
  apply Forall2_fmap_r, Forall_Forall2_diag, list.Forall_forall.
  intros t [Hne _]%list_elem_of_filter. unfold shift_down. simpl.
  destruct (N.ltb_spec k t); split; intros; lia.
Qed.

Lemma removeNode_in_range g k :
  adj_len_ok g → (k < node_count g)%N →
  Graph_removeNode g k
  = Some (mkGraph (delete (N.to_nat k) (node_data g))
            (purge k <$> delete (N.to_nat k) (adj g)), GRAPH_SUCCESS).
Proof.
  intros Hwf Hk.
  destruct (call_defined (RemoveNode k) g Hwf) as [[g' st] Hc]. simpl in Hc.
  rewrite Hc.
  apply removeNode_inv in Hc as [(_ & _ & Hge)|(-> & _ & _ & ->)]; [lia|done].
Qed.

(** C1: on a graph with one adjacency list per node and for [k] below the
    node count, [Graph_removeNode] reports success; the node count drops by
    one; the value and the adjacency list at index [k] are deleted; and each
    remaining adjacency list loses every occurrence of [k], has its targets
    above [k] lowered by one and keeps its targets below [k]. *)
Theorem removeNode_success g k
  (Hwf : adj_len_ok g) (Hk : (k < node_count g)%N) :
  ∃ g', Graph_removeNode g k = Some (g', GRAPH_SUCCESS)
    ∧ (node_count g' + 1)%N = node_count g
    ∧ node_data g' = delete (N.to_nat k) (node_data g)
    ∧ S (length (adj g')) = length (adj g)
    ∧ Forall2 (renumbered k) (delete (N.to_nat k) (adj g)) (adj g').
Proof.
  eexists. split; [by apply removeNode_in_range|]. simpl.
  assert (is_Some (node_data g !! N.to_nat k)) as Hnd.
  { apply lookup_lt_is_Some. unfold node_count, Vec.size in Hk. lia. }
  assert (is_Some (adj g !! N.to_nat k)) as Hadj.
  { apply lookup_lt_is_Some. rewrite Hwf. by apply lookup_lt_is_Some. }
  split_and!.
  - unfold node_count, Vec.size in *. simpl. rewrite length_delete by done.
    lia.
  - done.
  - rewrite length_fmap, length_delete by done.
    apply lookup_lt_is_Some in Hadj. lia.
  - apply Forall2_fmap_r, Forall_Forall2_diag, list.Forall_forall.
    intros l _. apply purge_renumbered.
Qed.

Lemma removeNode_success_witness :
  ∃ g', Graph_removeNode sample_four 1 = Some (g', GRAPH_SUCCESS)
    ∧ (node_count g' + 1)%N = node_count sample_four
    ∧ node_data g' = delete (N.to_nat 1) (node_data sample_four)
    ∧ S (length (adj g')) = length (adj sample_four)
    ∧ Forall2 (renumbered 1) (delete (N.to_nat 1) (adj sample_four)) (adj g').
Proof. apply (removeNode_success sample_four 1); reflexivity. Defined.

Example removeNode_sample_four :
  Graph_removeNode sample_four 1
  = Some (mkGraph [1.5%float; 3.5%float; 4.5%float] [[2; 1]; []; [2; 0]]%N,
          GRAPH_SUCCESS).
Proof. reflexivity. Qed.

Lemma elem_of_purge k l t' :
  t' ∈ purge k l ↔ ∃ t, t ∈ l ∧ t ≠ k ∧ t' = shift_down k t.
Proof.
  rewrite purge_filter_map, list_elem_of_fmap.
  split; intros (t & H1 & H2).
  - apply list_elem_of_filter in H2 as [Hne Ht]. by exists t.
  - destruct H2 as [Hne ->]. exists t. split; [done|].
    by apply list_elem_of_filter.
Qed.

Lemma lookup_delete_index_after {A} (l : list A) k i :
  i ≠ N.to_nat k → delete (N.to_nat k) l !! index_after k i = l !! i.
Proof.
  intros Hi. unfold index_after. case_decide.
  - by apply list_lookup_delete_lt.
  - rewrite list_lookup_delete_ge by lia. f_equal. lia.
Qed.

(** C4, as the code has it: after a successful [Graph_removeNode] there is
    one adjacency list less, node [i] (other than [k]) is found under its
    shifted index, and its adjacency list is exactly, in order and with
    multiplicities, the old targets other than [k], each target above [k]
    lowered by one and each target below [k] unchanged.  So a target above
    [k] appears lowered by one, a target below [k] appears unchanged, nothing
    else appears, and [k] itself stands exactly at the places, among the
    targets kept, where [k + 1] stood before. *)
Theorem removeNode_targets g k g' (i : nat) (neighbors : list N)
  (Hrm : Graph_removeNode g k = Some (g', GRAPH_SUCCESS))
  (Hl : adj g !! i = Some neighbors) (Hi : i ≠ N.to_nat k) :
  S (length (adj g')) = length (adj g)
  ∧ ∃ neighbors',
      adj g' !! index_after k i = Some neighbors'
      ∧ neighbors'
        = (λ t, if (k <? t)%N then (t - 1)%N else t)
            <$> filter (λ t, t ≠ k) neighbors
      ∧ (∀ p, neighbors' !! p = Some k
              ↔ filter (λ t, t ≠ k) neighbors !! p = Some (k + 1)%N)
      ∧ (∀ t, t ∈ neighbors → (k < t)%N → (t - 1)%N ∈ neighbors')
      ∧ (∀ t, t ∈ neighbors → (t < k)%N → t ∈ neighbors')
      ∧ (∀ t', t' ∈ neighbors' →
           ∃ t, t ∈ neighbors ∧ t ≠ k
                ∧ t' = if (k <? t)%N then (t - 1)%N else t)
      ∧ (k ∈ neighbors' ↔ (k + 1)%N ∈ neighbors).
Proof.
  apply removeNode_inv in Hrm as [(? & _)|(_ & Hk & Hlt & ->)]; [done|].
  simpl. split.
  { rewrite length_fmap, length_delete by by apply lookup_lt_is_Some. lia. }
  exists (purge k neighbors).
  assert (∀ t, shift_down k t = if (k <? t)%N then (t - 1)%N else t) as Hsd.
  { intros t. unfold shift_down. by rewrite N.sub_1_r. }
  assert (purge k neighbors
          = (λ t, if (k <? t)%N then (t - 1)%N else t)
              <$> filter (λ t, t ≠ k) neighbors) as Hpurge.
  { rewrite purge_filter_map. apply list_fmap_ext. intros _ t _. apply Hsd. }
  split_and!.
  - by rewrite list_lookup_fmap, lookup_delete_index_after, Hl.
  - done.
  - intros p. rewrite Hpurge, list_lookup_fmap.
    destruct (filter (λ t, t ≠ k) neighbors !! p) as [t|] eqn:E; simpl;
      [|done].
    apply list_elem_of_lookup_2, list_elem_of_filter in E as [Hne _].
    destruct (N.ltb_spec k t); split; intros [= H']; f_equal; lia.
  - intros t Ht Hkt. apply elem_of_purge. exists t.
    split_and!; [done|lia|]. rewrite Hsd.
    by destruct (N.ltb_spec k t); [|lia].
  - intros t Ht Hkt. apply elem_of_purge. exists t.
    split_and!; [done|lia|]. rewrite Hsd.
    by destruct (N.ltb_spec k t); [lia|].
  - intros t' (t & Ht & Hne & ->)%elem_of_purge. exists t. by rewrite Hsd.
  - rewrite elem_of_purge. split.
    + intros (t & Ht & Hne & Heq). rewrite Hsd in Heq.
      destruct (N.ltb_spec k t); [|lia].
      by replace (k + 1)%N with t by lia.
    + intros Ht. exists (k + 1)%N. split_and!; [done|lia|].
      rewrite Hsd. destruct (N.ltb_spec k (k + 1)); lia.
Qed.

Lemma removeNode_targets_witness :
  S (length (adj (mkGraph [1.5%float; 3.5%float; 4.5%float]
                    [[2; 1]; []; [2; 0]]%N)))
  = length (adj sample_four)
  ∧ ∃ neighbors',
      adj (mkGraph [1.5%float; 3.5%float; 4.5%float] [[2; 1]; []; [2; 0]]%N)
        !! index_after 1 0 = Some neighbors'
      ∧ neighbors'
        = (λ t, if (1 <? t)%N then (t - 1)%N else t)
            <$> filter (λ t, t ≠ 1%N) [1; 3; 1; 2]%N
      ∧ (∀ p, neighbors' !! p = Some 1%N
              ↔ filter (λ t, t ≠ 1%N) [1; 3; 1; 2]%N !! p = Some (1 + 1)%N)
      ∧ (∀ t, t ∈ [1; 3; 1; 2]%N → (1 < t)%N → (t - 1)%N ∈ neighbors')
      ∧ (∀ t, t ∈ [1; 3; 1; 2]%N → (t < 1)%N → t ∈ neighbors')
      ∧ (∀ t', t' ∈ neighbors' →
           ∃ t, t ∈ [1; 3; 1; 2]%N ∧ t ≠ 1%N
                ∧ t' = if (1 <? t)%N then (t - 1)%N else t)
      ∧ (1%N ∈ neighbors' ↔ (1 + 1)%N ∈ [1; 3; 1; 2]%N).
Proof.
  apply (removeNode_targets sample_four 1 _ 0 [1; 3; 1; 2]%N);
    [reflexivity | reflexivity | simpl; lia].
Defined.

(** Duplicates survive the renumbering: with node 1 removed, the targets
    [[3, 3, 0, 2]] become [[2, 2, 0, 1]]. *)
Example removeNode_keeps_duplicates :
  Graph_removeNode
    (mkGraph (node_data sample_four) [[3; 3; 0; 2]; []; []; []]%N) 1
  = Some (mkGraph [1.5%float; 3.5%float; 4.5%float] [[2; 2; 0; 1]; []; []]%N,
          GRAPH_SUCCESS).
Proof. reflexivity. Qed.

(** C4, as stated, fails: removing node 1 from the graph with the single
    edge 0 -> 2 renumbers that edge to 0 -> 1, so an adjacency list of the
    result does contain the removed index. *)
Lemma removeNode_result_contains_removed_index :
  ∃ g' neighbors',
    Graph_removeNode sample_skip 1 = Some (g', GRAPH_SUCCESS)
    ∧ adj g' !! 0 = Some neighbors'
    ∧ 1%N ∈ neighbors'.
Proof.
  exists (mkGraph [1.5%float; 3.5%float] [[1]; []]%N), [1%N].
  split_and!; [reflexivity | reflexivity | apply list_elem_of_here].
Qed.

(** ** [Graph_addNode] *)

(** C2: on a graph with one adjacency list per node, [Graph_addNode] always
    appends the node: the index written to [out_node] is the old node
    count, which grows by one.  With the sentinel, or with a parent below
    the new index, the status is success, and in the latter case the new
    index is appended to the parent's adjacency list; with any other parent
    the status is [GRAPH_ERR_INVALID_PARENT], no edge is added and the node
    stays. *)
Theorem addNode_always_appends g val parent
  (Hwf : adj_len_ok g) (Hsize : (node_count g ≤ Vec.SIZE_MAX)%N) :
  ∃ g' st,
    Graph_addNode g val parent = Some (g', node_count g, st)
    ∧ node_count g' = (node_count g + 1)%N
    ∧ node_data g' = node_data g ++ [val]
    ∧ length (adj g') = S (length (adj g))
    ∧ adj g' !! length (adj g) = Some []
    ∧ (parent = Vec.SIZE_MAX →
         st = GRAPH_SUCCESS ∧ adj g' = adj g ++ [[]])
    ∧ ((parent < node_count g)%N →
         st = GRAPH_SUCCESS
         ∧ ∃ neighbors, adj g !! N.to_nat parent = Some neighbors
             ∧ adj g' = <[N.to_nat parent := neighbors ++ [node_count g]]>
                          (adj g) ++ [[]])
    ∧ ((node_count g ≤ parent)%N → parent ≠ Vec.SIZE_MAX →
         st = GRAPH_ERR_INVALID_PARENT ∧ adj g' = adj g ++ [[]]).
Proof.
  destruct (call_defined (AddNode val parent) g Hwf) as [[g1 st1] Hc].
  simpl in Hc.
  apply fmap_Some in Hc as ([[g' out] st] & Hc & _).
  pose proof (addNode_inv _ _ _ _ _ _ Hc) as (-> & Hnd & H).
  exists g', st. split; [done|].
  split; [by eapply node_count_app|]. split; [done|].
  assert (∀ l : list (list N), (l ++ [[]]) !! length l = Some []) as Hlast.
  { intros l. by rewrite lookup_app_r, Nat.sub_diag. }
  destruct H as [(-> & -> & ->)|[(-> & Hne & Hge & ->)|(-> & Hne & Hlt & l & Hl & ->)]].
  - rewrite length_app, Hlast. simpl.
    split_and!; [lia|done|done| |done].
    intros Hlt. exfalso. unfold Vec.SIZE_MAX in *. lia.
  - rewrite length_app, Hlast. simpl.
    split_and!; [lia|done|done| |done]. lia.
  - destruct (adj_at g parent Hwf Hlt) as [neighbors Hn].
    rewrite (lookup_app_l_Some _ _ _ _ Hn) in Hl. injection Hl as <-.
    assert (N.to_nat parent < length (adj g)) as Hp.
    { by eapply lookup_lt_Some. }
    rewrite insert_app_l by done.
    split_and!.
    + rewrite length_app, length_insert. simpl. lia.
    + rewrite lookup_app_r by (rewrite length_insert; lia).
      by rewrite length_insert, Nat.sub_diag.
    + done.
    + intros _. split; [done|]. by exists neighbors.
    + lia.
Qed.

Lemma addNode_always_appends_witness :
  ∃ g' st,
    Graph_addNode main_root 4.56%float 0 = Some (g', node_count main_root, st)
    ∧ node_count g' = (node_count main_root + 1)%N
    ∧ node_data g' = node_data main_root ++ [4.56%float]
    ∧ length (adj g') = S (length (adj main_root))
    ∧ adj g' !! length (adj main_root) = Some []
    ∧ (0%N = Vec.SIZE_MAX →
         st = GRAPH_SUCCESS ∧ adj g' = adj main_root ++ [[]])
    ∧ ((0 < node_count main_root)%N →
         st = GRAPH_SUCCESS
         ∧ ∃ neighbors, adj main_root !! N.to_nat 0 = Some neighbors
             ∧ adj g' = <[N.to_nat 0 := neighbors ++ [node_count main_root]]>
                          (adj main_root) ++ [[]])
    ∧ ((node_count main_root ≤ 0)%N → 0%N ≠ Vec.SIZE_MAX →
         st = GRAPH_ERR_INVALID_PARENT ∧ adj g' = adj main_root ++ [[]]).
Proof.
  apply (addNode_always_appends main_root 4.56%float 0);
    [reflexivity | by vm_compute].
Defined.

(** The three outcomes of [Graph_addNode] on the one-node graph of [main]. *)
Example addNode_outcomes :
  Graph_addNode main_root 4.56%float Vec.SIZE_MAX
  = Some (mkGraph [1.23%float; 4.56%float] [[]; []], 1%N, GRAPH_SUCCESS)
  ∧ Graph_addNode main_root 4.56%float 0
    = Some (main_child, 1%N, GRAPH_SUCCESS)
  ∧ Graph_addNode main_root 4.56%float 1
    = Some (mkGraph [1.23%float; 4.56%float] [[]; []], 1%N,
            GRAPH_ERR_INVALID_PARENT)
  ∧ Graph_addNode main_root 4.56%float 7
    = Some (mkGraph [1.23%float; 4.56%float] [[]; []], 1%N,
            GRAPH_ERR_INVALID_PARENT).
Proof. repeat split. Qed.

(** ** [Graph_addEdge] *)

(** C6: on a graph with one adjacency list per node, [Graph_addEdge] with a
    source or a target at or above the node count reports
    [GRAPH_ERR_INVALID_EDGE] and returns the graph as it was; otherwise it
    appends the target at the end of the source's adjacency list, whatever
    that list already holds and whether or not source and target
    coincide, and reports success. *)
Theorem addEdge_spec g source target (Hwf : adj_len_ok g) :
  (((node_count g ≤ source)%N ∨ (node_count g ≤ target)%N) →
     Graph_addEdge g source target = Some (g, GRAPH_ERR_INVALID_EDGE))
  ∧ ((source < node_count g)%N → (target < node_count g)%N →
       ∃ neighbors,
         adj g !! N.to_nat source = Some neighbors
         ∧ Graph_addEdge g source target
           = Some (mkGraph (node_data g)
                     (<[N.to_nat source := neighbors ++ [target]]> (adj g)),
                   GRAPH_SUCCESS)).
Proof.
  destruct (call_defined (AddEdge source target) g Hwf) as [[g' st] Hc].
  simpl in Hc. rewrite Hc.
  apply addEdge_inv in Hc
    as [(-> & -> & Hge)|(-> & Hs & Ht & neighbors & Hn & ->)].
  - split; [done|]. lia.
  - split; [lia|]. intros _ _. by exists neighbors.
Qed.

Lemma addEdge_spec_witness :
  Graph_addEdge sample_triple 3 0 = Some (sample_triple, GRAPH_ERR_INVALID_EDGE)
  ∧ ∃ neighbors,
      adj sample_triple !! N.to_nat 0 = Some neighbors
      ∧ Graph_addEdge sample_triple 0 0
        = Some (mkGraph (node_data sample_triple)
                  (<[N.to_nat 0 := neighbors ++ [0%N]]> (adj sample_triple)),
                GRAPH_SUCCESS).
Proof.
  split.
  - apply (addEdge_spec sample_triple 3 0); [reflexivity|]. left. by vm_compute.
  - apply (addEdge_spec sample_triple 0 0); reflexivity.
Defined.

(** A duplicate edge and a self-loop are both stored. *)
Example addEdge_duplicate_and_loop :
  Graph_addEdge sample_triple 0 2
  = Some (mkGraph (node_data sample_triple) [[2; 2; 2; 2]; []; [0]]%N,
          GRAPH_SUCCESS)
  ∧ Graph_addEdge sample_triple 2 2
    = Some (mkGraph (node_data sample_triple) [[2; 2; 2]; []; [0; 2]]%N,
            GRAPH_SUCCESS).
Proof. split; reflexivity. Qed.

(** ** [Graph_removeEdge] *)

Lemma removeEdge_absent g source target neighbors :
  adj g !! N.to_nat source = Some neighbors → target ∉ neighbors →
  Graph_removeEdge g source target = Some (g, GRAPH_ERR_INVALID_EDGE).
Proof.
  intros Hn Ht. unfold Graph_removeEdge, Vec.at_.
  assert (source < Vec.size (adj g))%N as Hs by (apply size_lt_lookup; eauto).
  destruct (N.leb_spec (Vec.size (adj g)) source); [lia|].
  rewrite Hn. simpl. apply find_None in Ht. by rewrite Ht.
Qed.

Lemma removeEdge_first g source target l1 l2 :
  adj g !! N.to_nat source = Some (l1 ++ target :: l2) → target ∉ l1 →
  Graph_removeEdge g source target
  = Some (mkGraph (node_data g) (<[N.to_nat source := l1 ++ l2]> (adj g)),
          GRAPH_SUCCESS).
Proof.
  intros Hn Ht. unfold Graph_removeEdge, Vec.at_, Vec.set.
  assert (source < Vec.size (adj g))%N as Hs by (apply size_lt_lookup; eauto).
  destruct (N.leb_spec (Vec.size (adj g)) source); [lia|].
  rewrite Hn. simpl. rewrite find_first by done. by rewrite erase_middle.
Qed.

(** C5: on a graph with one adjacency list per node, [Graph_removeEdge]
    reports [GRAPH_ERR_INVALID_EDGE] when the source is at or above the node
    count; otherwise it reports the same error when the target does not
    occur in the source's adjacency list, and else removes the leftmost
    occurrence only and reports success.  From [[2,2,2]], three calls leave
    [[2,2]], [[2]] and the empty list, and a fourth reports the error. *)
Theorem removeEdge_first_occurrence g source target (Hwf : adj_len_ok g) :
  ((node_count g ≤ source)%N →
     Graph_removeEdge g source target = Some (g, GRAPH_ERR_INVALID_EDGE))
  ∧ ((source < node_count g)%N →
       ∃ neighbors,
         adj g !! N.to_nat source = Some neighbors
         ∧ (target ∉ neighbors →
              Graph_removeEdge g source target
              = Some (g, GRAPH_ERR_INVALID_EDGE))
         ∧ (target ∈ neighbors →
              ∃ l1 l2,
                neighbors = l1 ++ target :: l2 ∧ (target ∉ l1)
                ∧ Graph_removeEdge g source target
                  = Some (mkGraph (node_data g)
                            (<[N.to_nat source := l1 ++ l2]> (adj g)),
                          GRAPH_SUCCESS)))
  ∧ (adj g !! N.to_nat source = Some [2; 2; 2]%N →
       ∃ g1 g2 g3,
         Graph_removeEdge g source 2 = Some (g1, GRAPH_SUCCESS)
         ∧ adj g1 !! N.to_nat source = Some [2; 2]%N
         ∧ Graph_removeEdge g1 source 2 = Some (g2, GRAPH_SUCCESS)
         ∧ adj g2 !! N.to_nat source = Some [2]%N
         ∧ Graph_removeEdge g2 source 2 = Some (g3, GRAPH_SUCCESS)
         ∧ adj g3 !! N.to_nat source = Some []
         ∧ Graph_removeEdge g3 source 2 = Some (g3, GRAPH_ERR_INVALID_EDGE)).
Proof.
  split_and!.
  - intros Hs. unfold Graph_removeEdge.
    assert (Vec.size (adj g) = node_count g) as ->.
    { unfold node_count, Vec.size. by rewrite Hwf. }
    by destruct (N.leb_spec (node_count g) source); [|lia].
  - intros Hs. destruct (adj_at g source Hwf Hs) as [neighbors Hn].
    exists neighbors. split_and!; [done| |].
    + by apply removeEdge_absent.
    + intros (l1 & l2 & -> & Hl1)%list_elem_of_split_l.
      exists l1, l2. split_and!; [done..|]. by apply removeEdge_first.
  - intros Hn.
    assert (N.to_nat source < length (adj g)) as Hlt by by eapply lookup_lt_Some.
    assert (∀ (a : list (list N)) l,
              N.to_nat source < length a →
              <[N.to_nat source := l]> a !! N.to_nat source = Some l) as Hset.
    { intros a l Ha. by apply list_lookup_insert_eq. }
    eexists _, _, _. split_and!.
    + apply (removeEdge_first g source 2 [] [2; 2]%N); [done|].
      apply not_elem_of_nil.
    + simpl. by apply Hset.
    + apply (removeEdge_first _ source 2 [] [2]%N);
        [by apply Hset | apply not_elem_of_nil].
    + simpl. apply Hset. by rewrite length_insert.
    + apply (removeEdge_first _ source 2 [] []); [|apply not_elem_of_nil].
      simpl. apply Hset. by rewrite length_insert.
    + simpl. apply Hset. by rewrite !length_insert.
    + eapply removeEdge_absent; [|apply not_elem_of_nil].
      simpl. apply Hset. by rewrite !length_insert.
Qed.

Lemma removeEdge_first_occurrence_witness :
  Graph_removeEdge sample_triple 5 2
  = Some (sample_triple, GRAPH_ERR_INVALID_EDGE)
  ∧ ∃ g1 g2 g3,
      Graph_removeEdge sample_triple 0 2 = Some (g1, GRAPH_SUCCESS)
      ∧ adj g1 !! N.to_nat 0 = Some [2; 2]%N
      ∧ Graph_removeEdge g1 0 2 = Some (g2, GRAPH_SUCCESS)
      ∧ adj g2 !! N.to_nat 0 = Some [2]%N
      ∧ Graph_removeEdge g2 0 2 = Some (g3, GRAPH_SUCCESS)
      ∧ adj g3 !! N.to_nat 0 = Some []
      ∧ Graph_removeEdge g3 0 2 = Some (g3, GRAPH_ERR_INVALID_EDGE).
Proof.
  split.
  - apply (removeEdge_first_occurrence sample_triple 5 2); [reflexivity|].
    by vm_compute.
  - apply (removeEdge_first_occurrence sample_triple 0 2); reflexivity.
Defined.

(** Only the leftmost of several occurrences goes. *)
Example removeEdge_leftmost :
  Graph_removeEdge (mkGraph (node_data sample_four) [[1; 3; 1; 2]; []; []; []]%N) 0 1
  = Some (mkGraph (node_data sample_four) [[3; 1; 2]; []; []; []]%N,
          GRAPH_SUCCESS).
Proof. reflexivity. Qed.

(** ** Failures and frames *)

(** C7: a call of [Graph_addEdge], [Graph_removeEdge] or [Graph_removeNode]
    that reports a status other than success returns the graph it was
    given, node values and adjacency lists alike. *)
Theorem failed_call_leaves_graph o g g' st
  (Ho : is_addNode o = false)
  (Hc : call o g = Some (g', st))
  (Hst : st ≠ GRAPH_SUCCESS) :
  g' = g.
Proof.
  destruct o as [val parent|s t|s t|k]; simpl in Ho, Hc; [done|..].
  - by apply addEdge_inv in Hc as [(_ & -> & _)|(-> & _)].
  - by apply removeEdge_inv in Hc as [(_ & -> & _)|(-> & _)].
  - by apply removeNode_inv in Hc as [(_ & -> & _)|(-> & _)].
Qed.

Lemma failed_call_leaves_graph_witness :
  ∃ g', call (RemoveEdge 1 2) sample_triple = Some (g', GRAPH_ERR_INVALID_EDGE)
        ∧ g' = sample_triple.
Proof.
  exists sample_triple. split; [reflexivity|].
  apply (failed_call_leaves_graph (RemoveEdge 1 2) sample_triple sample_triple
           GRAPH_ERR_INVALID_EDGE); [reflexivity | reflexivity | discriminate].
Defined.

(** Each of the three functions has a failing call on the sample graph, and
    each leaves it as it was. *)
Example failing_calls :
  call (AddEdge 0 3) sample_triple = Some (sample_triple, GRAPH_ERR_INVALID_EDGE)
  ∧ call (AddEdge 3 0) sample_triple
    = Some (sample_triple, GRAPH_ERR_INVALID_EDGE)
  ∧ call (RemoveEdge 1 2) sample_triple
    = Some (sample_triple, GRAPH_ERR_INVALID_EDGE)
  ∧ call (RemoveEdge 3 2) sample_triple
    = Some (sample_triple, GRAPH_ERR_INVALID_EDGE)
  ∧ call (RemoveNode 3) sample_triple
    = Some (sample_triple, GRAPH_ERR_INVALID_NODE).
Proof. repeat split. Qed.

(** C9: a successful [Graph_addEdge] or [Graph_removeEdge] changes the
    adjacency list of [source] only: the node values, the number of
    adjacency lists and the adjacency list of every other node are as
    before. *)
Theorem edge_calls_frame g g' source target
  (Hc : Graph_addEdge g source target = Some (g', GRAPH_SUCCESS)
        ∨ Graph_removeEdge g source target = Some (g', GRAPH_SUCCESS)) :
  node_data g' = node_data g
  ∧ length (adj g') = length (adj g)
  ∧ ∀ i, i ≠ N.to_nat source → adj g' !! i = adj g !! i.
Proof.
  assert (∃ l, g' = mkGraph (node_data g) (<[N.to_nat source := l]> (adj g)))
    as [l ->].
  { destruct Hc as [Hc|Hc].
    - apply addEdge_inv in Hc as [(? & _)|(_ & _ & _ & l & _ & ->)]; [done|].
      by eexists.
    - apply removeEdge_inv in Hc as [(? & _)|(_ & l1 & l2 & _ & _ & ->)];
        [done|]. by eexists. }
  simpl. split_and!; [done|apply length_insert|].
  intros i Hi. by apply list_lookup_insert_ne.
Qed.

Lemma edge_calls_frame_witness :
  node_data (mkGraph (node_data sample_triple) [[2; 2]; []; [0]]%N)
  = node_data sample_triple
  ∧ length (adj (mkGraph (node_data sample_triple) [[2; 2]; []; [0]]%N))
    = length (adj sample_triple)
  ∧ ∀ i, i ≠ N.to_nat 0 →
      adj (mkGraph (node_data sample_triple) [[2; 2]; []; [0]]%N) !! i
      = adj sample_triple !! i.
Proof.
  apply (edge_calls_frame sample_triple _ 0 2). right. reflexivity.
Defined.

(** ** The invariants over all reachable states *)

(** C3: in every state reachable from the empty graph every entry of every
    adjacency list is below the node count; each of the four calls keeps it
    so, and on a reachable state each call does return. *)
Theorem targets_in_range_invariant :
  (∀ g, reachable g → targets_in_range g)
  ∧ (∀ o g g', targets_in_range g → run o g = Some g' → targets_in_range g')
  ∧ (∀ o g, reachable g → ∃ g', run o g = Some g' ∧ targets_in_range g').
Proof.
  split_and!.
  - intros g Hr. by apply reachable_ok.
  - intros o g g' Hg [st Hc]%run_Some. by eapply call_in_range.
  - intros o g [Hwf Hg]%reachable_ok.
    destruct (call_defined o g Hwf) as [[g' st] Hc]. exists g'. split.
    + apply run_Some. by exists st.
    + by eapply call_in_range.
Qed.

Lemma targets_in_range_invariant_witness :
  targets_in_range main_child
  ∧ ∃ g', run (RemoveNode 0) main_child = Some g' ∧ targets_in_range g'.
Proof.
  destruct targets_in_range_invariant as (H1 & _ & H3). split.
  - apply H1, reachable_main_child.
  - apply H3, reachable_main_child.
Defined.

(** C8: in every state reachable from the empty graph there are as many
    adjacency lists as nodes; each of the four calls keeps it so, and on
    such a state each call does return. *)
Theorem adj_len_invariant :
  (∀ g, reachable g → adj_len_ok g)
  ∧ (∀ o g g', adj_len_ok g → run o g = Some g' → adj_len_ok g')
  ∧ (∀ o g, adj_len_ok g → ∃ g', run o g = Some g' ∧ adj_len_ok g').
Proof.
  split_and!.
  - intros g Hr. by apply reachable_ok.
  - intros o g g' Hg [st Hc]%run_Some. by eapply call_len_ok.
  - intros o g Hwf.
    destruct (call_defined o g Hwf) as [[g' st] Hc]. exists g'. split.
    + apply run_Some. by exists st.
    + by eapply call_len_ok.
Qed.

Lemma adj_len_invariant_witness :
  adj_len_ok main_child
  ∧ ∃ g', run (AddNode 7.5%float 1) main_child = Some g' ∧ adj_len_ok g'.
Proof.
  destruct adj_len_invariant as (H1 & _ & H3). split.
  - apply H1, reachable_main_child.
  - apply H3, H1, reachable_main_child.
Defined.

(** C10: on a reachable state, [Graph_removeEdge] from a source below the
    node count to a target at or above it reports [GRAPH_ERR_INVALID_EDGE]
    and returns the graph as it was: the search finds nothing, since no
    adjacency list of a reachable state holds such a target. *)
Theorem removeEdge_target_out_of_range g source target
  (Hr : reachable g)
  (Hs : (source < node_count g)%N)
  (Ht : (node_count g ≤ target)%N) :
  Graph_removeEdge g source target = Some (g, GRAPH_ERR_INVALID_EDGE).
Proof.
  apply reachable_ok in Hr as [Hwf Hg].
  destruct (adj_at g source Hwf Hs) as [neighbors Hn].
  eapply removeEdge_absent; [done|]. intros Hin.
  specialize (Hg _ _ _ Hn Hin). lia.
Qed.

Lemma removeEdge_target_out_of_range_witness :
  Graph_removeEdge main_child 0 2 = Some (main_child, GRAPH_ERR_INVALID_EDGE).
Proof.
  apply (removeEdge_target_out_of_range main_child 0 2);
    [apply reachable_main_child | reflexivity | by vm_compute].
Defined.

(** ** [Graph_print] *)

Lemma print_node_Some g i val neighbors :
  node_data g !! i = Some val → adj g !! i = Some neighbors →
  print_node g i = Some (print_line i val neighbors).
Proof.
  unfold print_node, Vec.at_. rewrite Nat2N.id. by intros -> ->.
Qed.

Lemma print_node_is_Some g i :
  i < length (node_data g) →
  is_Some (print_node g i) ↔ i < length (adj g).
Proof.
  intros [val Hv]%lookup_lt_is_Some.
  unfold print_node, Vec.at_. rewrite Nat2N.id, Hv. simpl.
  rewrite <- lookup_lt_is_Some.
  destruct (adj g !! i) as [l|]; simpl; split; intros H;
    first [by destruct H | by eexists].
Qed.

(** [Graph_print] reads [g.adj[i]] for every [i] below
    [g.node_data.size()]: it returns exactly when there are at least as
    many adjacency lists as nodes. *)
Theorem Graph_print_defined_iff g :
  is_Some (Graph_print g) ↔ length (node_data g) ≤ length (adj g).
Proof.
  unfold Graph_print.
  assert (is_Some (mapM (print_node g) (seq 0 (length (node_data g))))
          ↔ length (node_data g) ≤ length (adj g)) as <-.
  { rewrite mapM_is_Some, Forall_seq. split.
    - intros H. destruct (node_data g) as [|v nd] eqn:E; simpl; [lia|].
      assert (length nd < length (node_data g)) as Hlt by (rewrite E; simpl; lia).
      specialize (H (length nd)). simpl in H.
      apply print_node_is_Some in H; [lia | done | rewrite E in Hlt; simpl in *; lia].
    - intros H i [_ Hi]. apply print_node_is_Some; simpl in *; lia. }
  destruct (mapM _ _) as [lines|]; simpl; split; intros H;
    first [by destruct H | by eexists].
Qed.

(** On a graph with at least as many adjacency lists as nodes, hence on
    every reachable one, [Graph_print] writes the heading with its line
    break and then, node by node in index order, the items of one line:
    the word [Node], the index, the value between brackets, the arrow, each
    target in stored order followed by a blank, and a line break.
    Adjacency lists beyond the last node are not written. *)
Theorem Graph_print_lines g
  (Hlen : length (node_data g) ≤ length (adj g)) :
  Graph_print g
  = Some (OStr ("Graph Nodes and Adjacency Lists:"
                +:+ String "010"%char EmptyString)
          :: concat
               (imap (λ i p,
                        [OStr "Node "; OSize (N.of_nat i); OStr " (";
                         ODouble p.1; OStr ") -> "]
                        ++ concat ((λ target, [OSize target; OStr " "])
                                     <$> p.2)
                        ++ [OStr (String "010"%char EmptyString)])
                  (zip (node_data g) (adj g)))).
Proof.
  unfold Graph_print.
  assert (mapM (print_node g) (seq 0 (length (node_data g)))
          = Some (imap (λ i p, print_line i p.1 p.2)
                    (zip (node_data g) (adj g)))) as ->; [|done].
  apply mapM_Some_2, Forall2_same_length_lookup_2.
  - rewrite length_imap, length_zip_with, length_seq. lia.
  - intros i j line [-> Hi]%lookup_seq Hline. simpl.
    rewrite list_lookup_imap in Hline.
    apply fmap_Some in Hline as ([val neighbors] & Hz & ->).
    apply lookup_zip_with_Some in Hz as (v & l & [= -> ->] & Hv & Hl).
    by apply print_node_Some.
Qed.

Lemma Graph_print_lines_witness :
  Graph_print sample_four
  = Some (OStr ("Graph Nodes and Adjacency Lists:"
                +:+ String "010"%char EmptyString)
          :: concat
               (imap (λ i p,
                        [OStr "Node "; OSize (N.of_nat i); OStr " (";
                         ODouble p.1; OStr ") -> "]
                        ++ concat ((λ target, [OSize target; OStr " "])
                                     <$> p.2)
                        ++ [OStr (String "010"%char EmptyString)])
                  (zip (node_data sample_four) (adj sample_four)))).
Proof. apply (Graph_print_lines sample_four). simpl. lia. Defined.

(** The first output of [main]: the items written for the two-node graph. *)
Example Graph_print_main_child :
  Graph_print main_child
  = Some [OStr ("Graph Nodes and Adjacency Lists:" +:+ newline);
          OStr "Node "; OSize 0; OStr " ("; ODouble 1.23%float; OStr ") -> ";
          OSize 1; OStr " "; OStr newline;
          OStr "Node "; OSize 1; OStr " ("; ODouble 4.56%float; OStr ") -> ";
          OStr newline].
Proof. reflexivity. Qed.

(** ** Undefined behaviour and statuses *)

(** Where the four functions leave defined behaviour: [Graph_removeEdge]
    never does; [Graph_addEdge] and [Graph_removeNode] do exactly when the
    index passes the test against [node_data.size()] but [adj] is too short
    for it; [Graph_addNode] does exactly when a parent below the new index
    lies beyond the adjacency list just added. *)
Theorem undefined_exactly g :
  (∀ val parent,
     Graph_addNode g val parent = None
     ↔ parent ≠ Vec.SIZE_MAX ∧ (parent < node_count g)%N
       ∧ length (adj g) < N.to_nat parent)
  ∧ (∀ source target,
       Graph_addEdge g source target = None
       ↔ (source < node_count g)%N ∧ (target < node_count g)%N
         ∧ length (adj g) ≤ N.to_nat source)
  ∧ (∀ source target, is_Some (Graph_removeEdge g source target))
  ∧ (∀ node,
       Graph_removeNode g node = None
       ↔ (node < node_count g)%N ∧ length (adj g) ≤ N.to_nat node).
Proof.
  unfold node_count. split_and!.
  - intros val parent. unfold Graph_addNode, Vec.at_, Vec.push_back.
    destruct (N.eqb_spec parent Vec.SIZE_MAX) as [Hp|Hp]; simpl.
    { split; [done|]. by intros [? _]. }
    destruct (N.ltb_spec parent (Vec.size (node_data g))) as [Hlt|Hge].
    + destruct ((adj g ++ [[]]) !! N.to_nat parent) as [l|] eqn:E; simpl.
      * split; [done|]. intros (_ & _ & Hlen).
        apply lookup_lt_Some in E. rewrite length_app in E. simpl in E. lia.
      * split; [|done]. intros _. split_and!; [done..|].
        apply lookup_ge_None in E. rewrite length_app in E. simpl in E. lia.
    + split; [done|]. intros (_ & Hlt & _). lia.
  - intros source target. unfold Graph_addEdge, Vec.at_.
    destruct (N.leb_spec (Vec.size (node_data g)) source) as [Hs|Hs]; simpl.
    { split; [done|]. intros (? & _). lia. }
    destruct (N.leb_spec (Vec.size (node_data g)) target) as [Ht|Ht]; simpl.
    { split; [done|]. intros (_ & ? & _). lia. }
    destruct (adj g !! N.to_nat source) as [l|] eqn:E; simpl.
    + split; [done|]. intros (_ & _ & Hlen). apply lookup_lt_Some in E. lia.
    + split; [|done]. intros _. split_and!; [done..|].
      by apply lookup_ge_None in E.
  - intros source target. unfold Graph_removeEdge, Vec.at_.
    destruct (N.leb_spec (Vec.size (adj g)) source) as [Hs|Hs]; [by eexists|].
    apply size_lt_lookup in Hs as [l ->]. simpl.
    destruct (Vec.find l target) as [it|] eqn:F; [|by eexists].
    apply find_Some in F as (l1 & l2 & -> & _ & ->).
    rewrite erase_middle. simpl. by eexists.
  - intros node. unfold Graph_removeNode, Vec.erase.
    destruct (N.leb_spec (Vec.size (node_data g)) node) as [Hs|Hs].
    { split; [done|]. intros (? & _). lia. }
    unfold Vec.size in Hs.
    destruct (decide (N.to_nat node < length (node_data g))); [|lia]. simpl.
    case_decide; simpl.
    + split; [done|]. intros [_ ?]. lia.
    + split; [|done]. intros _. split; [done|lia].
Qed.

(** A graph with two nodes and one adjacency list: the calls that index
    [adj] at 1 are undefined. *)
Example undefined_on_short_adj :
  let g := mkGraph [1.5%float; 2.5%float] [[]] in
  Graph_addEdge g 1 0 = None
  ∧ Graph_removeNode g 1 = None
  ∧ Graph_print g = None
  ∧ Graph_removeEdge g 1 0 = Some (g, GRAPH_ERR_INVALID_EDGE).
Proof. repeat split. Qed.

(** Each call reports success or the one error code of its function, and
    which of the two is decided by the range tests alone: the parent test
    for [Graph_addNode], both index tests for [Graph_addEdge], the node test
    for [Graph_removeNode], and for [Graph_removeEdge] whether the target
    occurs in the source's adjacency list. *)
Theorem status_exactly o g g' st (Hc : call o g = Some (g', st)) :
  match o with
  | AddNode _ parent =>
      (st = GRAPH_SUCCESS
       ∧ (parent = Vec.SIZE_MAX ∨ (parent < node_count g)%N))
      ∨ (st = GRAPH_ERR_INVALID_PARENT
         ∧ parent ≠ Vec.SIZE_MAX ∧ (node_count g ≤ parent)%N)
  | AddEdge source target =>
      (st = GRAPH_SUCCESS
       ∧ (source < node_count g)%N ∧ (target < node_count g)%N)
      ∨ (st = GRAPH_ERR_INVALID_EDGE
         ∧ ((node_count g ≤ source)%N ∨ (node_count g ≤ target)%N))
  | RemoveEdge source target =>
      (st = GRAPH_SUCCESS
       ∧ ∃ neighbors, adj g !! N.to_nat source = Some neighbors
                      ∧ target ∈ neighbors)
      ∨ (st = GRAPH_ERR_INVALID_EDGE
         ∧ ∀ neighbors, adj g !! N.to_nat source = Some neighbors →
                        target ∉ neighbors)
  | RemoveNode node =>
      (st = GRAPH_SUCCESS ∧ (node < node_count g)%N)
      ∨ (st = GRAPH_ERR_INVALID_NODE ∧ (node_count g ≤ node)%N)
  end.
Proof.
  destruct o as [val parent|s t|s t|k]; simpl in Hc.
  - apply fmap_Some in Hc as ([[g1 out] st1] & Hc & [= -> ->]).
    apply addNode_inv in Hc as (_ & _ & H).
    destruct H as [(-> & -> & _)|[(-> & ? & ? & _)|(-> & _ & ? & _)]]; auto.
  - apply addEdge_inv in Hc as [(-> & _ & ?)|(-> & ? & ? & _)]; auto.
  - apply removeEdge_inv in Hc
      as [(-> & _ & H)|(-> & l1 & l2 & Hl & _ & _)].
    + right. split; [done|]. intros l Hl.
      destruct H as [Hge|(l' & Hl' & Hnotin)].
      * apply lookup_lt_Some in Hl. unfold Vec.size in Hge. lia.
      * congruence.
    + left. split; [done|]. eexists. split; [done|].
      apply elem_of_app. right. left.
  - apply removeNode_inv in Hc as [(-> & _ & ?)|(-> & ? & _)]; auto.
Qed.

Lemma status_exactly_witness :
  (GRAPH_ERR_INVALID_EDGE = GRAPH_SUCCESS
   ∧ ∃ neighbors, adj sample_triple !! N.to_nat 1 = Some neighbors
                  ∧ 2%N ∈ neighbors)
  ∨ (GRAPH_ERR_INVALID_EDGE = GRAPH_ERR_INVALID_EDGE
     ∧ ∀ neighbors, adj sample_triple !! N.to_nat 1 = Some neighbors →
                    2%N ∉ neighbors).
Proof.
  apply (status_exactly (RemoveEdge 1 2) sample_triple sample_triple).
  reflexivity.
Defined.

(** ** Round trips *)

Lemma Graph_eta g : mkGraph (node_data g) (adj g) = g.
Proof. by destruct g. Qed.

Lemma purge_id k l : Forall (λ t, (t < k)%N) l → purge k l = l.
Proof.
  rewrite purge_filter_map. induction 1 as [|t l Ht _ IH]; [done|].
  rewrite filter_cons_True by (simpl; lia). rewrite fmap_cons, IH.
  f_equal. unfold shift_down. destruct (N.ltb_spec k t); [lia|done].
Qed.

Lemma purge_snoc k l : Forall (λ t, (t < k)%N) l → purge k (l ++ [k]) = l.
Proof.
  intros Hl. rewrite <- (purge_id k l Hl) at 2. rewrite !purge_filter_map.
  rewrite filter_app, filter_cons_False, filter_nil, app_nil_r; [done|].
  simpl. by intros ?.
Qed.

Lemma addEdge_in_range g source target neighbors :
  (source < node_count g)%N → (target < node_count g)%N →
  adj g !! N.to_nat source = Some neighbors →
  Graph_addEdge g source target
  = Some (mkGraph (node_data g)
            (<[N.to_nat source := neighbors ++ [target]]> (adj g)),
          GRAPH_SUCCESS).
Proof.
  unfold Graph_addEdge, node_count, Vec.at_, Vec.set, Vec.push_back.
  intros Hs Ht ->.
  destruct (N.leb_spec (Vec.size (node_data g)) source); [lia|].
  by destruct (N.leb_spec (Vec.size (node_data g)) target); [lia|].
Qed.

(** Undoing [Graph_addNode]: on a graph that satisfies the two invariants,
    whatever the parent argument and the status reported, removing the node
    just added gives back the graph as it was before, edge to the parent
    included. *)
Theorem addNode_removeNode g val parent g1 out st
  (Hwf : adj_len_ok g) (Hr : targets_in_range g)
  (Ha : Graph_addNode g val parent = Some (g1, out, st)) :
  Graph_removeNode g1 out = Some (g, GRAPH_SUCCESS).
Proof.
  assert (adj_len_ok g1) as Hwf1.
  { apply (call_len_ok (AddNode val parent) g g1 st Hwf). simpl.
    by rewrite Ha. }
  apply addNode_inv in Ha as (-> & Hnd & H).
  rewrite removeNode_in_range;
    [|done|rewrite (node_count_app _ _ _ Hnd); lia].
  assert (N.to_nat (node_count g) = length (node_data g)) as ->.
  { unfold node_count, Vec.size. lia. }
  apply targets_in_range_Forall in Hr.
  assert (purge (node_count g) <$> adj g = adj g) as Hadj.
  { apply list_eq. intros i. rewrite list_lookup_fmap.
    destruct (adj g !! i) as [l|] eqn:E; [|done]. simpl. f_equal.
    apply purge_id. by eapply Forall_lookup_1 in Hr. }
  rewrite Hnd, delete_middle, app_nil_r. do 2 f_equal.
  transitivity (mkGraph (node_data g) (adj g)); [|apply Graph_eta].
  f_equal. rewrite <- Hwf.
  destruct H as [(_ & _ & ->)|[(_ & _ & _ & ->)|(_ & _ & Hlt & l & Hl & ->)]].
  - by rewrite delete_middle, app_nil_r.
  - by rewrite delete_middle, app_nil_r.
  - destruct (adj_at g parent Hwf Hlt) as [l' Hl'].
    rewrite (lookup_app_l_Some _ _ _ _ Hl') in Hl. injection Hl as <-.
    rewrite insert_app_l by by eapply lookup_lt_Some.
    rewrite <- (length_insert (adj g) (N.to_nat parent)
                 (l' ++ [node_count g])) at 1.
    rewrite delete_middle, app_nil_r, list_fmap_insert, Hadj.
    rewrite purge_snoc by by eapply Forall_lookup_1 in Hr.
    by apply list_insert_id.
Qed.

Lemma addNode_removeNode_witness :
  Graph_removeNode main_child 1 = Some (main_root, GRAPH_SUCCESS).
Proof.
  apply (addNode_removeNode main_root 4.56%float 0 main_child 1 GRAPH_SUCCESS);
    [reflexivity | apply reachable_ok, reachable_main_root | reflexivity].
Defined.

(** Undoing [Graph_addEdge]: after a successful [Graph_addEdge], the same
    [Graph_removeEdge] succeeds and changes the source's adjacency list
    only.  When the target was not in that list before, the graph is
    exactly what it was.  When it was, the copy removed is the leftmost
    older one, not the one just added: a list [l1 ++ target :: l2] with no
    [target] in [l1] ends as [l1 ++ l2 ++ [target]], a rearrangement of
    what it was. *)
Theorem addEdge_removeEdge g source target g1
  (Ha : Graph_addEdge g source target = Some (g1, GRAPH_SUCCESS)) :
  (∃ g2 neighbors neighbors2,
     Graph_removeEdge g1 source target = Some (g2, GRAPH_SUCCESS)
     ∧ adj g !! N.to_nat source = Some neighbors
     ∧ g2 = mkGraph (node_data g) (<[N.to_nat source := neighbors2]> (adj g))
     ∧ neighbors2 ≡ₚ neighbors
     ∧ (target ∉ neighbors → g2 = g))
  ∧ (∀ neighbors,
       adj g !! N.to_nat source = Some neighbors → target ∉ neighbors →
       Graph_removeEdge g1 source target = Some (g, GRAPH_SUCCESS))
  ∧ (∀ l1 l2,
       adj g !! N.to_nat source = Some (l1 ++ target :: l2) → target ∉ l1 →
       Graph_removeEdge g1 source target
       = Some (mkGraph (node_data g)
                 (<[N.to_nat source := l1 ++ l2 ++ [target]]> (adj g)),
               GRAPH_SUCCESS)).
Proof.
  apply addEdge_inv in Ha as [(? & _)|(_ & _ & _ & l & Hl & ->)]; [done|].
  assert (N.to_nat source < length (adj g)) as Hlt by by eapply lookup_lt_Some.
  assert (∀ l1 l2, l = l1 ++ target :: l2 → target ∉ l1 →
            Graph_removeEdge
              (mkGraph (node_data g)
                 (<[N.to_nat source := l ++ [target]]> (adj g)))
              source target
            = Some (mkGraph (node_data g)
                      (<[N.to_nat source := l1 ++ l2 ++ [target]]> (adj g)),
                    GRAPH_SUCCESS)) as Hfirst.
  { intros l1 l2 -> Hl1.
    rewrite (removeEdge_first _ source target l1 (l2 ++ [target]));
      [|simpl|done].
    - simpl. by rewrite list_insert_insert_eq.
    - rewrite list_lookup_insert_eq by done. by rewrite <- app_assoc. }
  assert (target ∉ l →
            Graph_removeEdge
              (mkGraph (node_data g)
                 (<[N.to_nat source := l ++ [target]]> (adj g)))
              source target
            = Some (g, GRAPH_SUCCESS)) as Habsent.
  { intros Hnotin.
    rewrite (removeEdge_first _ source target l []); [|simpl|done].
    - simpl. rewrite list_insert_insert_eq, app_nil_r.
      rewrite list_insert_id by done. by rewrite Graph_eta.
    - by rewrite list_lookup_insert_eq. }
  split_and!.
  - destruct (decide (target ∈ l)) as [Hin|Hnotin].
    + apply list_elem_of_split_l in Hin as (l1 & l2 & -> & Hl1).
      exists (mkGraph (node_data g)
                (<[N.to_nat source := l1 ++ l2 ++ [target]]> (adj g))),
        (l1 ++ target :: l2), (l1 ++ l2 ++ [target]).
      split_and!; [by apply Hfirst|done|done| |].
      * apply Permutation_app_head. rewrite Permutation_app_comm. done.
      * intros []. apply elem_of_app. right. left.
    + exists g, l, l. split_and!; [by apply Habsent|done| |done|done].
      rewrite list_insert_id by done. by rewrite Graph_eta.
  - intros l' Hl' Hnotin. rewrite Hl in Hl'. injection Hl' as <-.
    by apply Habsent.
  - intros l1 l2 Hl' Hl1. rewrite Hl in Hl'. injection Hl' as ->.
    by apply Hfirst.
Qed.

Lemma addEdge_removeEdge_witness :
  Graph_removeEdge
    (mkGraph (node_data sample_four) [[1; 3; 1; 2; 3]; [0]; [1; 1]; [3; 0]]%N)
    0 3
  = Some (mkGraph (node_data sample_four)
            (<[N.to_nat 0 := [1] ++ [1; 2] ++ [3]]> (adj sample_four))%N,
          GRAPH_SUCCESS).
Proof.
  apply (addEdge_removeEdge sample_four 0 3 _ eq_refl);
    [reflexivity | apply not_elem_of_cons; split; [done|apply not_elem_of_nil]].
Defined.

(** The rearrangement is real: the leftmost copy goes, not the one just
    added. *)
Example addEdge_removeEdge_reorders :
  ∃ g1 g2,
    Graph_addEdge sample_four 0 3 = Some (g1, GRAPH_SUCCESS)
    ∧ Graph_removeEdge g1 0 3 = Some (g2, GRAPH_SUCCESS)
    ∧ adj sample_four !! 0 = Some [1; 3; 1; 2]%N
    ∧ adj g2 !! 0 = Some [1; 1; 2; 3]%N.
Proof. repeat eexists. Qed.

(** ** Edge multiplicities *)

Section multiplicities.
Implicit Types (g : Graph) (l : list N) (t : N).

Lemma count_app t l1 l2 :
  length (filter (λ x, x = t) (l1 ++ l2))
  = length (filter (λ x, x = t) l1) + length (filter (λ x, x = t) l2).
Proof. by rewrite filter_app, length_app. Qed.

Lemma count_singleton t x :
  length (filter (λ y, y = t) [x]) = if decide (t = x) then 1 else 0.
Proof.
  case_decide as H.
  - by rewrite filter_cons_True.
  - rewrite filter_cons_False; [done|]. simpl. congruence.
Qed.

Lemma edge_mult_insert g g' i l' s' t' :
  adj g' = <[i := l']> (adj g) → i < length (adj g) →
  edge_mult g' s' t'
  = if decide (s' = i) then length (filter (λ x, x = t') l')
    else edge_mult g s' t'.
Proof.
  unfold edge_mult. intros -> Hi. case_decide as H.
  - subst. by rewrite list_lookup_insert_eq.
  - by rewrite list_lookup_insert_ne.
Qed.

Lemma edge_mult_snoc g g' s' t' :
  adj g' = adj g ++ [[]] → edge_mult g' s' t' = edge_mult g s' t'.
Proof.
  unfold edge_mult. intros ->.
  destruct (decide (s' < length (adj g))) as [Hlt|Hge].
  - by rewrite lookup_app_l.
  - rewrite lookup_app_r by lia. rewrite (lookup_ge_None_2 (adj g)) by lia.
    by destruct (s' - length (adj g)) as [|[|?]].
Qed.

Lemma shift_up_ne k t' : shift_up k t' ≠ k.
Proof. unfold shift_up. destruct (N.ltb_spec t' k); lia. Qed.

Lemma shift_down_up k t' x :
  x ≠ k → shift_down k x = t' ↔ x = shift_up k t'.
Proof.
  unfold shift_up, shift_down. intros Hne.
  destruct (N.ltb_spec t' k); destruct (N.ltb_spec k x); lia.
Qed.

Lemma count_purge k t' l :
  length (filter (λ x, x = t') (purge k l))
  = length (filter (λ x, x = shift_up k t') l).
Proof.
  rewrite purge_filter_map.
  induction l as [|x l IH]; [done|].
  destruct (decide (x = k)) as [->|Hne].
  - rewrite (filter_cons_False (λ y, y ≠ k)) by (simpl; tauto).
    rewrite IH. rewrite (filter_cons_False _ k); [done|]. simpl.
    intros Heq. by eapply shift_up_ne.
  - rewrite (filter_cons_True (λ y, y ≠ k)) by done.
    rewrite fmap_cons.
    destruct (decide (x = shift_up k t')) as [Heq|Hneq].
    + rewrite !filter_cons_True; [simpl; by rewrite IH|done|].
      simpl. by apply shift_down_up.
    + rewrite !filter_cons_False; [done|done|]. simpl.
      by rewrite shift_down_up.
Qed.

End multiplicities.

(** A successful [Graph_addEdge] stores the edge [source -> target] once
    more and changes the multiplicity of no other edge. *)
Theorem addEdge_mult g source target g' (s' : nat) (t' : N)
  (Hc : Graph_addEdge g source target = Some (g', GRAPH_SUCCESS)) :
  edge_mult g' s' t'
  = edge_mult g s' t'
    + (if decide (s' = N.to_nat source ∧ t' = target) then 1 else 0).
Proof.
  apply addEdge_inv in Hc as [(? & _)|(_ & _ & _ & l & Hl & ->)]; [done|].
  erewrite edge_mult_insert; [|done|by eapply lookup_lt_Some].
  destruct (decide (s' = N.to_nat source)) as [->|Hne].
  - rewrite count_app, count_singleton. unfold edge_mult. rewrite Hl.
    f_equal. repeat case_decide; tauto.
  - rewrite decide_False by tauto. lia.
Qed.

Lemma addEdge_mult_witness :
  edge_mult (mkGraph (node_data sample_triple) [[2; 2; 2; 2]; []; [0]]%N) 0 2
  = edge_mult sample_triple 0 2
    + (if decide (0 = N.to_nat 0 ∧ 2%N = 2%N) then 1 else 0).
Proof. apply (addEdge_mult sample_triple 0 2). reflexivity. Defined.

(** A successful [Graph_removeEdge] stores the edge [source -> target] once
    less and changes the multiplicity of no other edge. *)
Theorem removeEdge_mult g source target g' (s' : nat) (t' : N)
  (Hc : Graph_removeEdge g source target = Some (g', GRAPH_SUCCESS)) :
  edge_mult g s' t'
  = edge_mult g' s' t'
    + (if decide (s' = N.to_nat source ∧ t' = target) then 1 else 0).
Proof.
  apply removeEdge_inv in Hc
    as [(? & _)|(_ & l1 & l2 & Hl & _ & ->)]; [done|].
  rewrite (edge_mult_insert g (mkGraph _ _) (N.to_nat source) (l1 ++ l2));
    [|done|by eapply lookup_lt_Some].
  destruct (decide (s' = N.to_nat source)) as [->|Hne].
  - unfold edge_mult. rewrite Hl.
    rewrite !count_app. change (target :: l2) with ([target] ++ l2).
    rewrite count_app, count_singleton.
    repeat case_decide; first [tauto | lia].
  - rewrite decide_False by tauto. lia.
Qed.

Lemma removeEdge_mult_witness :
  edge_mult sample_triple 0 2
  = edge_mult (mkGraph (node_data sample_triple) [[2; 2]; []; [0]]%N) 0 2
    + (if decide (0 = N.to_nat 0 ∧ 2%N = 2%N) then 1 else 0).
Proof. apply (removeEdge_mult sample_triple 0 2). reflexivity. Defined.

(** After a successful [Graph_removeNode] the graph is the old one without
    node [node], renumbered: the edge [j -> t'] is stored as often as the
    edge between the nodes that had these numbers before was.  Every edge
    from or to the removed node is gone, every other edge is kept with its
    multiplicity. *)
Theorem removeNode_mult g node g' (j : nat) (t' : N)
  (Hc : Graph_removeNode g node = Some (g', GRAPH_SUCCESS)) :
  edge_mult g' j t' = edge_mult g (index_before node j) (shift_up node t').
Proof.
  apply removeNode_inv in Hc as [(? & _)|(_ & _ & _ & ->)]; [done|].
  unfold edge_mult, index_before. simpl.
  rewrite list_lookup_fmap, list_lookup_delete.
  case_decide; destruct (adj g !! _) as [l|]; simpl; try done;
    apply count_purge.
Qed.

Lemma removeNode_mult_witness :
  edge_mult (mkGraph [1.5%float; 3.5%float; 4.5%float] [[2; 1]; []; [2; 0]]%N)
    2 2
  = edge_mult sample_four (index_before 1 2) (shift_up 1 2).
Proof. apply (removeNode_mult sample_four 1). reflexivity. Defined.

(** [Graph_addNode] changes the multiplicity of one edge at most: with a
    parent that is not the sentinel and lies below the new index, the edge
    from the parent to the new node is stored once more; every other
    multiplicity, and every multiplicity in the other cases, is as
    before. *)
Theorem addNode_mult g val parent g' out st (s' : nat) (t' : N)
  (Hc : Graph_addNode g val parent = Some (g', out, st)) :
  edge_mult g' s' t'
  = edge_mult g s' t'
    + (if decide (parent ≠ Vec.SIZE_MAX ∧ (parent < node_count g)%N
                  ∧ s' = N.to_nat parent ∧ t' = node_count g)
       then 1 else 0).
Proof.
  apply addNode_inv in Hc as (_ & _ & H).
  destruct H as [(_ & -> & Ha)|[(_ & _ & Hge & Ha)|(_ & Hp & Hlt & l & Hl & Ha)]].
  - rewrite (edge_mult_snoc g g') by done.
    rewrite decide_False by tauto. lia.
  - rewrite (edge_mult_snoc g g') by done.
    rewrite decide_False by lia. lia.
  - pose (h := mkGraph (node_data g) (adj g ++ [[]])).
    rewrite (edge_mult_insert h g' (N.to_nat parent) _ s' t' Ha)
      by by eapply lookup_lt_Some.
    destruct (decide (s' = N.to_nat parent)) as [->|Hne].
    + rewrite count_app, count_singleton.
      rewrite <- (edge_mult_snoc g h) by done.
      unfold edge_mult. simpl. rewrite Hl.
      f_equal. repeat case_decide; tauto.
    + rewrite (edge_mult_snoc g h) by done.
      rewrite decide_False by tauto. lia.
Qed.

Lemma addNode_mult_witness :
  edge_mult main_child 0 1
  = edge_mult main_root 0 1
    + (if decide ((0%N ≠ Vec.SIZE_MAX) ∧ (0 < node_count main_root)%N
                  ∧ 0 = N.to_nat 0 ∧ 1%N = node_count main_root)
       then 1 else 0).
Proof.
  apply (addNode_mult main_root 4.56%float 0 main_child 1 GRAPH_SUCCESS).
  reflexivity.
Defined.

(** ** Calls made in a row *)

Lemma calls_cons o os g g1 st g2 sts :
  call o g = Some (g1, st) → calls os g1 = Some (g2, sts) →
  calls (o :: os) g = Some (g2, st :: sts).
Proof. intros H1 H2. simpl. rewrite H1. simpl. by rewrite H2. Qed.

Lemma calls_cons_inv o os g g2 sts :
  calls (o :: os) g = Some (g2, sts) →
  ∃ g1 st sts', call o g = Some (g1, st) ∧ calls os g1 = Some (g2, sts')
                ∧ sts = st :: sts'.
Proof.
  simpl. destruct (call o g) as [[g1 st]|]; simpl; [|done].
  destruct (calls os g1) as [[g2' sts']|] eqn:E; simpl; [|done].
  intros [= <- <-]. by exists g1, st, sts'.
Qed.

Lemma count_zero_not_elem t (l : list N) :
  length (filter (λ x, x = t) l) = 0 → t ∉ l.
Proof.
  intros H Hin.
  assert (t ∈ filter (λ x, x = t) l) as Hf by by apply list_elem_of_filter.
  destruct (filter (λ x, x = t) l); [by apply not_elem_of_nil in Hf|done].
Qed.

Lemma filter_ne_id t (l : list N) : t ∉ l → filter (λ x, x ≠ t) l = l.
Proof.
  induction l as [|x l IH]; [done|]. intros [Hne Hl]%not_elem_of_cons.
  rewrite filter_cons_True by (simpl; congruence). by rewrite IH.
Qed.

Lemma removeEdge_until_absent_aux source target m :
  ∀ g neighbors,
    adj g !! N.to_nat source = Some neighbors →
    length (filter (λ x, x = target) neighbors) = m →
    calls (replicate (S m) (RemoveEdge source target)) g
    = Some (mkGraph (node_data g)
              (<[N.to_nat source := filter (λ x, x ≠ target) neighbors]>
                 (adj g)),
            replicate m GRAPH_SUCCESS ++ [GRAPH_ERR_INVALID_EDGE]).
Proof.
  induction m as [|m IH]; intros g l Hl Hm.
  - apply count_zero_not_elem in Hm.
    rewrite filter_ne_id, list_insert_id, Graph_eta by done.
    eapply calls_cons; [by eapply removeEdge_absent | done].
  - destruct (decide (target ∈ l)) as [Hin|Hnotin].
    2:{ rewrite <- (filter_ne_id target l Hnotin) in Hm at 1.
        rewrite list_filter_filter in Hm.
        destruct (filter _ l) as [|x f] eqn:E; [done|].
        assert (x ∈ x :: f) as Hx by left. rewrite <- E in Hx.
        apply list_elem_of_filter in Hx as [[? ?] _]. done. }
    apply list_elem_of_split_l in Hin as (l1 & l2 & -> & Hl1).
    assert (N.to_nat source < length (adj g)) as Hlt by by eapply lookup_lt_Some.
    rewrite replicate_S. simpl replicate.
    eapply calls_cons; [by apply removeEdge_first|].
    rewrite (IH _ (l1 ++ l2)); simpl.
    + rewrite list_insert_insert_eq. do 3 f_equal.
      rewrite !filter_app. f_equal.
      by rewrite filter_cons_False by (simpl; tauto).
    + by rewrite list_lookup_insert_eq.
    + change (target :: l2) with ([target] ++ l2) in Hm.
      rewrite !count_app, count_singleton, decide_True in Hm by done.
      rewrite count_app. lia.
Qed.

(** Removing one edge until it is gone: when the source's adjacency list
    holds the target [m] times, [m + 1] calls of [Graph_removeEdge] in a row
    report success [m] times and then [GRAPH_ERR_INVALID_EDGE]; what is left
    is that list without any copy of the target, the other targets in
    their order, and the rest of the graph untouched. *)
Theorem removeEdge_until_absent g source target neighbors
  (Hl : adj g !! N.to_nat source = Some neighbors) :
  calls (replicate (S (length (filter (λ x, x = target) neighbors)))
           (RemoveEdge source target)) g
  = Some (mkGraph (node_data g)
            (<[N.to_nat source := filter (λ x, x ≠ target) neighbors]>
               (adj g)),
          replicate (length (filter (λ x, x = target) neighbors))
            GRAPH_SUCCESS
          ++ [GRAPH_ERR_INVALID_EDGE]).
Proof. by apply removeEdge_until_absent_aux. Qed.

Lemma removeEdge_until_absent_witness :
  calls (replicate (S (length (filter (λ x, x = 1%N) [1; 3; 1; 2]%N)))
           (RemoveEdge 0 1)) sample_four
  = Some (mkGraph (node_data sample_four)
            (<[N.to_nat 0 := filter (λ x, x ≠ 1%N) [1; 3; 1; 2]%N]>
               (adj sample_four)),
          replicate (length (filter (λ x, x = 1%N) [1; 3; 1; 2]%N))
            GRAPH_SUCCESS
          ++ [GRAPH_ERR_INVALID_EDGE]).
Proof. apply (removeEdge_until_absent sample_four 0 1). reflexivity. Defined.

(** Emptying the graph: on a graph with one adjacency list per node, as
    many calls of [Graph_removeNode] as there are nodes, each with an index
    below the number of nodes left at that moment, all report success and
    end in the empty graph. *)
Theorem removeNode_all ks :
  ∀ g (Hwf : adj_len_ok g)
    (Hlen : length ks = length (node_data g))
    (Hks : ∀ i k, ks !! i = Some k → N.to_nat k + i < length (node_data g)),
    calls (RemoveNode <$> ks) g
    = Some (Graph_empty, replicate (length ks) GRAPH_SUCCESS).
Proof.
  induction ks as [|k ks IH]; intros g Hwf Hlen Hks.
  - destruct g as [nd a]. unfold adj_len_ok in Hwf. simpl in *.
    symmetry in Hlen. apply nil_length_inv in Hlen as ->.
    by apply nil_length_inv in Hwf as ->.
  - simpl in Hlen. rewrite fmap_cons.
    pose proof (Hks 0 k eq_refl) as Hk.
    assert (is_Some (node_data g !! N.to_nat k)) as Hnd
      by (apply lookup_lt_is_Some; lia).
    assert (is_Some (adj g !! N.to_nat k)) as Hadj
      by (apply lookup_lt_is_Some; rewrite Hwf; lia).
    eapply calls_cons.
    + simpl. apply removeNode_in_range; [done|].
      unfold node_count, Vec.size. lia.
    + apply IH.
      * unfold adj_len_ok. simpl.
        rewrite length_fmap, !length_delete by done. by rewrite Hwf.
      * simpl. rewrite length_delete by done. lia.
      * intros i k' Hk'. simpl. rewrite length_delete by done.
        specialize (Hks (S i) k' Hk'). lia.
Qed.

Lemma removeNode_all_witness :
  calls (RemoveNode <$> [1; 2; 0; 0]%N) sample_four
  = Some (Graph_empty, replicate (length [1; 2; 0; 0]%N) GRAPH_SUCCESS).
Proof.
  apply (removeNode_all [1; 2; 0; 0]%N sample_four); [reflexivity..|].
  intros [|[|[|[|i]]]] k; simpl; intros [= <-]; simpl; lia.
Defined.

(** ** Edge calls on different sources *)

Section edge_calls.
Implicit Types (g h : Graph) (o : Op).

Lemma insert_unchanged (a : list (list N)) (i : nat) :
  ∃ x : list N, ∀ b : list (list N), b !! i = a !! i → <[i := x]> b = b.
Proof.
  destruct (a !! i) as [l|] eqn:E.
  - exists l. intros b Hb. by apply list_insert_id.
  - exists []. intros b Hb. apply list_insert_ge. by apply lookup_ge_None.
Qed.

Lemma addEdge_out_of_range g source target :
  (node_count g ≤ source)%N ∨ (node_count g ≤ target)%N →
  Graph_addEdge g source target = Some (g, GRAPH_ERR_INVALID_EDGE).
Proof.
  unfold Graph_addEdge, node_count. intros H.
  destruct (N.leb_spec (Vec.size (node_data g)) source); [done|].
  destruct (N.leb_spec (Vec.size (node_data g)) target); [done|]. lia.
Qed.

Lemma removeEdge_out_of_range g source target :
  (Vec.size (adj g) ≤ source)%N →
  Graph_removeEdge g source target = Some (g, GRAPH_ERR_INVALID_EDGE).
Proof.
  unfold Graph_removeEdge. intros H.
  by destruct (N.leb_spec (Vec.size (adj g)) source); [|lia].
Qed.

(** What an edge call does is decided by the two lengths and by the
    source's adjacency list, and it overwrites that list only. *)
Lemma edge_call_local o s g g' st h :
  edge_source o = Some s →
  call o g = Some (g', st) →
  length (node_data h) = length (node_data g) →
  length (adj h) = length (adj g) →
  adj h !! N.to_nat s = adj g !! N.to_nat s →
  ∃ x, node_data g' = node_data g
       ∧ adj g' = <[N.to_nat s := x]> (adj g)
       ∧ call o h
         = Some (mkGraph (node_data h) (<[N.to_nat s := x]> (adj h)), st).
Proof.
  intros Ho Hc Hnd Hadj Hs.
  assert (node_count h = node_count g) as Hn
    by (unfold node_count, Vec.size; by rewrite Hnd).
  assert (Vec.size (adj h) = Vec.size (adj g)) as Hsz
    by (unfold Vec.size; by rewrite Hadj).
  destruct (insert_unchanged (adj g) (N.to_nat s)) as [x0 Hx0].
  destruct o as [val parent|s0 t|s0 t|k]; simpl in Ho, Hc; try done;
    injection Ho as ->.
  - apply addEdge_inv in Hc as [(-> & -> & Hge)|(-> & Hlt & Ht & l & Hl & ->)].
    + exists x0. rewrite !Hx0, Graph_eta by done. split_and!; [done..|].
      simpl. apply addEdge_out_of_range. by rewrite Hn.
    + exists (l ++ [t]). split_and!; [done..|]. simpl.
      apply addEdge_in_range; rewrite ?Hn; [done..|]. by rewrite Hs.
  - apply removeEdge_inv in Hc
      as [(-> & -> & H)|(-> & l1 & l2 & Hl & Hl1 & ->)].
    + exists x0. rewrite !Hx0, Graph_eta by done. split_and!; [done..|].
      simpl. destruct H as [Hge|(l & Hl & Hnotin)].
      * apply removeEdge_out_of_range. by rewrite Hsz.
      * eapply removeEdge_absent; [|done]. by rewrite Hs.
    + exists (l1 ++ l2). split_and!; [done..|]. simpl.
      apply removeEdge_first; [|done]. by rewrite Hs.
Qed.

Lemma edge_calls_swap o1 o2 s1 s2 g g' st1 st2 :
  edge_source o1 = Some s1 → edge_source o2 = Some s2 → s1 ≠ s2 →
  calls [o1; o2] g = Some (g', [st1; st2]) →
  calls [o2; o1] g = Some (g', [st2; st1]).
Proof.
  intros H1 H2 Hne Hc.
  assert (N.to_nat s1 ≠ N.to_nat s2) as Hne' by lia.
  apply calls_cons_inv in Hc as (g1 & st1' & sts & Hc1 & Hc & [= <- <-]).
  apply calls_cons_inv in Hc as (g2 & st2' & sts & Hc2 & [= -> <-] & [= <-]).
  destruct (edge_call_local o1 s1 g g1 st1 g H1 Hc1 eq_refl eq_refl eq_refl)
    as (y & Hnd1 & Hadj1 & _).
  assert (length (adj g) = length (adj g1)) as Hlen
    by by rewrite Hadj1, length_insert.
  assert (adj g !! N.to_nat s2 = adj g1 !! N.to_nat s2) as Hlk
    by by rewrite Hadj1, list_lookup_insert_ne.
  assert (length (node_data g) = length (node_data g1)) as Hnd
    by by rewrite Hnd1.
  destruct (edge_call_local o2 s2 g1 g' st2 g H2 Hc2 Hnd Hlen Hlk)
    as (x2 & Hnd2 & Hadj2 & Hc2').
  pose (g2 := mkGraph (node_data g) (<[N.to_nat s2 := x2]> (adj g))).
  assert (length (adj g2) = length (adj g)) as Hlen2
    by apply length_insert.
  assert (adj g2 !! N.to_nat s1 = adj g !! N.to_nat s1) as Hlk2
    by by apply list_lookup_insert_ne.
  destruct (edge_call_local o1 s1 g g1 st1 g2 H1 Hc1 eq_refl Hlen2 Hlk2)
    as (x1 & _ & Hadj1' & Hc1').
  eapply calls_cons; [exact Hc2'|]. eapply calls_cons; [exact Hc1'|].
  simpl. do 2 f_equal.
  rewrite <- (Graph_eta g'), Hnd2, Hnd1, Hadj2, Hadj1'. simpl. f_equal.
  by apply list_insert_insert_ne.
Qed.

End edge_calls.

(** Two calls of [Graph_addEdge] or [Graph_removeEdge], in any mix, on
    different sources can be made in either order: the final graph is the
    same and each call reports the same status. *)
Theorem edge_calls_commute o1 o2 s1 s2 g g' st1 st2
  (H1 : edge_source o1 = Some s1) (H2 : edge_source o2 = Some s2)
  (Hne : s1 ≠ s2) :
  calls [o1; o2] g = Some (g', [st1; st2])
  ↔ calls [o2; o1] g = Some (g', [st2; st1]).
Proof.
  split.
  - by apply (edge_calls_swap o1 o2 s1 s2).
  - by apply (edge_calls_swap o2 o1 s2 s1).
Qed.

Lemma edge_calls_commute_witness :
  calls [RemoveEdge 0 1; AddEdge 1 0] sample_four
  = Some (mkGraph (node_data sample_four)
            [[3; 1; 2]; [0; 0]; [1; 1]; [3; 0]]%N,
          [GRAPH_SUCCESS; GRAPH_SUCCESS]).
Proof.
  apply (edge_calls_commute (AddEdge 1 0) (RemoveEdge 0 1) 1 0);
    [reflexivity | reflexivity | discriminate | reflexivity].
Defined.

(** On one and the same source the order does matter. *)
Example edge_calls_same_source :
  (fst <$> calls [AddEdge 0 1; RemoveEdge 0 1] sample_skip)
  ≠ (fst <$> calls [RemoveEdge 0 1; AddEdge 0 1] sample_skip).
Proof. discriminate. Qed.

(** ** Every graph that satisfies the invariants can be built *)

Section building.
Implicit Types (nd : list float) (a : list (list N)).

Lemma reachable_nodes nd : reachable (mkGraph nd (replicate (length nd) [])).
Proof.
  induction nd as [|val nd IH] using rev_ind; [apply reachable_empty|].
  eapply (reachable_step (AddNode val Vec.SIZE_MAX)); [exact IH|].
  unfold run. simpl. unfold Graph_addNode, Vec.push_back. simpl.
  by rewrite length_app, Nat.add_1_r, replicate_S_end.
Qed.

Lemma reachable_add_targets nd s ts :
  ∀ a l,
    reachable (mkGraph nd a) → a !! s = Some l →
    Forall (λ t, (t < Vec.size nd)%N) ts →
    reachable (mkGraph nd (<[s := l ++ ts]> a)).
Proof.
  induction ts as [|t ts IH]; intros a l Hr Hl Hts.
  - by rewrite app_nil_r, list_insert_id.
  - apply Forall_cons_1 in Hts as [Ht Hts].
    pose proof (reachable_ok _ Hr) as [Hwf _]. unfold adj_len_ok in Hwf.
    simpl in Hwf.
    assert (s < length a) as Hs by by eapply lookup_lt_Some.
    replace (l ++ t :: ts) with ((l ++ [t]) ++ ts) by by rewrite <- app_assoc.
    rewrite <- (list_insert_insert_eq a s ((l ++ [t]) ++ ts) (l ++ [t])).
    apply IH; [|by apply list_lookup_insert_eq|done].
    eapply (reachable_step (AddEdge (N.of_nat s) t)); [exact Hr|].
    unfold run. simpl.
    rewrite (addEdge_in_range _ (N.of_nat s) t l); simpl.
    + by rewrite Nat2N.id.
    + unfold node_count, Vec.size. simpl. lia.
    + done.
    + by rewrite Nat2N.id.
Qed.

Lemma reachable_fill nd a :
  length a = length nd →
  Forall (Forall (λ t, (t < Vec.size nd)%N)) a →
  ∀ i, i ≤ length nd →
    reachable (mkGraph nd (take i a ++ replicate (length nd - i) [])).
Proof.
  intros Hlen Ha. induction i as [|i IH]; intros Hi.
  - rewrite take_0, Nat.sub_0_r. apply reachable_nodes.
  - destruct (lookup_lt_is_Some_2 a i) as [l Hl]; [lia|].
    assert (take (S i) a ++ replicate (length nd - S i) []
            = <[i := [] ++ l]>
                (take i a ++ replicate (length nd - i) [])) as ->.
    { rewrite (take_S_r _ _ _ Hl).
      replace (length nd - i) with (S (length nd - S i)) by lia.
      rewrite replicate_S, insert_app_r_alt by (rewrite length_take; lia).
      rewrite length_take, Nat.min_l by lia. rewrite Nat.sub_diag. simpl.
      by rewrite <- app_assoc. }
    apply reachable_add_targets; [apply IH; lia| |].
    + rewrite lookup_app_r by (rewrite length_take; lia).
      rewrite length_take, Nat.min_l by lia. rewrite Nat.sub_diag.
      apply lookup_replicate_2. lia.
    + by eapply Forall_lookup_1 in Ha.
Qed.

End building.

(** The two invariants describe the reachable graphs exactly: a graph can
    be built from the empty one by calls of the four functions if and only
    if it has one adjacency list per node and every stored target is below
    the node count. *)
Theorem reachable_iff_invariants g :
  reachable g ↔ adj_len_ok g ∧ targets_in_range g.
Proof.
  split; [apply reachable_ok|]. intros [Hwf Hr].
  apply targets_in_range_Forall in Hr. unfold adj_len_ok in Hwf.
  pose proof (reachable_fill (node_data g) (adj g) Hwf Hr
                (length (node_data g)) (Nat.le_refl _)) as H.
  rewrite Nat.sub_diag, app_nil_r, take_ge, Graph_eta in H by lia. done.
Qed.

Lemma reachable_iff_invariants_witness : reachable sample_four.
Proof.
  apply (reachable_iff_invariants sample_four). split; [reflexivity|].
  apply targets_in_range_Forall. repeat constructor.
Defined.

(** ** Two removals in either order *)

Section two_removals.
Implicit Types (g : Graph) (l : list N) (j k : N).

Lemma purge_cons k x l :
  purge k (x :: l)
  = if decide (x = k) then purge k l else shift_down k x :: purge k l.
Proof.
  rewrite !purge_filter_map. case_decide.
  - by rewrite filter_cons_False by (simpl; tauto).
  - by rewrite filter_cons_True by done.
Qed.

Lemma purge_purge j k l :
  (j < k)%N → purge j (purge k l) = purge (k - 1) (purge j l).
Proof.
  intros Hjk. induction l as [|x l IH]; [done|].
  repeat (rewrite purge_cons || case_decide); rewrite ?IH; try done;
    unfold shift_down in *;
    repeat match goal with
           | H : context [(?a <? ?b)%N] |- _ => destruct (N.ltb_spec a b)
           | |- context [(?a <? ?b)%N] => destruct (N.ltb_spec a b)
           end;
    first [lia | f_equal; lia].
Qed.

Lemma delete_delete {A} (w : list A) (i j : nat) :
  i < j → delete i (delete j w) = delete (j - 1) (delete i w).
Proof.
  intros Hij. apply list_eq. intros n.
  rewrite !list_lookup_delete.
  repeat case_decide; first [lia | f_equal; lia].
Qed.

Lemma removeNode_out_of_range g k :
  (node_count g ≤ k)%N →
  Graph_removeNode g k = Some (g, GRAPH_ERR_INVALID_NODE).
Proof.
  unfold Graph_removeNode, node_count. intros H.
  by destruct (N.leb_spec (Vec.size (node_data g)) k); [|lia].
Qed.

Lemma removeNode_result_ok g k :
  adj_len_ok g → (k < node_count g)%N →
  adj_len_ok (mkGraph (delete (N.to_nat k) (node_data g))
                (purge k <$> delete (N.to_nat k) (adj g)))
  ∧ (node_count (mkGraph (delete (N.to_nat k) (node_data g))
                   (purge k <$> delete (N.to_nat k) (adj g))) + 1)%N
    = node_count g.
Proof.
  unfold adj_len_ok, node_count, Vec.size. simpl. intros Hwf Hk.
  rewrite length_fmap, !length_delete by (apply lookup_lt_is_Some; lia).
  split; [by rewrite Hwf | lia].
Qed.

End two_removals.

(** Removing two nodes in either order: on a graph with one adjacency list
    per node and for [j] below [k], removing [k] and then [j] leaves the
    same graph as removing [j] and then [k - 1], the index [k] has after
    the first removal, and the two calls report the same statuses. *)
Theorem removeNode_swap g j k
  (Hwf : adj_len_ok g) (Hjk : (j < k)%N) :
  ∃ g' stj stk,
    calls [RemoveNode k; RemoveNode j] g = Some (g', [stk; stj])
    ∧ calls [RemoveNode j; RemoveNode (k - 1)] g = Some (g', [stj; stk]).
Proof.
  destruct (N.lt_ge_cases k (node_count g)) as [Hk|Hk].
  - destruct (removeNode_result_ok g k Hwf Hk) as [Hwf1 Hn1].
    destruct (removeNode_result_ok g j Hwf) as [Hwf2 Hn2]; [lia|].
    eexists _, GRAPH_SUCCESS, GRAPH_SUCCESS. split.
    + eapply calls_cons; [by apply removeNode_in_range|].
      eapply calls_cons; [apply removeNode_in_range; [done|lia]|done].
    + eapply calls_cons; [apply removeNode_in_range; [done|lia]|].
      eapply calls_cons; [apply removeNode_in_range; [done|lia]|].
      simpl. do 2 f_equal.
      replace (N.to_nat (k - 1)) with (N.to_nat k - 1) by lia.
      rewrite <- (delete_delete (node_data g)) by lia. f_equal.
      rewrite <- !list_fmap_delete, <- (delete_delete (adj g)) by lia.
      rewrite <- !list_fmap_compose. apply list_fmap_ext.
      intros i l _. simpl. symmetry. by apply purge_purge.
  - destruct (N.lt_ge_cases j (node_count g)) as [Hj|Hj].
    + destruct (removeNode_result_ok g j Hwf Hj) as [Hwf2 Hn2].
      eexists _, GRAPH_SUCCESS, GRAPH_ERR_INVALID_NODE. split.
      * eapply calls_cons; [by apply removeNode_out_of_range|].
        eapply calls_cons; [by apply removeNode_in_range|done].
      * eapply calls_cons; [by apply removeNode_in_range|].
        eapply calls_cons; [apply removeNode_out_of_range; lia|done].
    + exists g, GRAPH_ERR_INVALID_NODE, GRAPH_ERR_INVALID_NODE. split.
      * eapply calls_cons; [by apply removeNode_out_of_range|].
        eapply calls_cons; [by apply removeNode_out_of_range|done].
      * eapply calls_cons; [by apply removeNode_out_of_range|].
        eapply calls_cons; [apply removeNode_out_of_range; lia|done].
Qed.

Lemma removeNode_swap_witness :
  ∃ g' stj stk,
    calls [RemoveNode 3; RemoveNode 1] sample_four = Some (g', [stk; stj])
    ∧ calls [RemoveNode 1; RemoveNode (3 - 1)] sample_four
      = Some (g', [stj; stk]).
Proof. apply (removeNode_swap sample_four 1 3); reflexivity. Defined.
